(** * pytrie: a prefix tree with memoized membership (src/trie.py)

    A shallow embedding of the [Trie] class of src/trie.py and of the
    [memoize] decorator wrapped around [Trie.__contains__].

    Language level.  src/setup.py declares "Programming Language ::
    Python :: 3.6" and src/trie.py imports [enum] from the standard
    library, so the embedding follows Python 3: [str] is a sequence of
    characters, iterating it yields one-character strings, [str] objects
    carry an [__iter__] attribute, and a [dict] iterates its keys in
    insertion order.

    Values.  Words (keys) are strings; the prefix of [autocomplete] is a
    string or a list of tokens.  The node graph is a tree of Python
    dictionaries keyed by strings, with strings and [None] at its
    leaves.  [assign] accepts any object as attribute name and value; it
    is modelled for a string as name and [None] or a string as value, and
    statements about [assign] and about tries built with it speak of
    these calls only.  The graph holds no shared sub-dictionary: [add]
    only stores fresh dictionaries and the (immutable) word, [load]
    installs the freshly parsed document, and the modelled attribute
    values are immutable.  In-place mutation of a node on the path from
    the root is therefore modelled by rebuilding that path.

    Two readings.  The methods are embedded as functions on the graph,
    which most statements are about, and once more, statement by
    statement, as programs over a store of dictionary objects ([Store]),
    where writing in place is what it is in the source.  The second
    reading carries the statement of what the queries leave untouched,
    and the two readings are proved to agree on every call, from a new
    trie on ([readings_agree]).

    The file has two parts: the embedding of the source, followed by the
    notions the statements need, and then the properties, those of the
    methods taken one by one first and further ones on how the methods
    work together last. *)

From Stdlib Require Import String Ascii List.
From stdpp Require Import base option list strings gmap.

Local Open Scope string_scope.
Local Open Scope list_scope.

(** ** Python values *)

(** [class TYPES(Enum)] (trie.py:36-38). *)
Inductive TYPES := STANDARD | EXTENDED.

(** The Python values that occur in a node graph: [None], [str] and
    [dict] with string keys.  A dictionary is an association list in
    insertion order (the iteration order of a Python 3.6 [dict]). *)
Unset Elimination Schemes.
Inductive pyval :=
| VNone
| VStr (s : string)
| VDict (d : list (string * pyval)).
Set Elimination Schemes.

(** Structural induction through the entries of a dictionary. *)
Definition pyval_ind (P : pyval → Prop)
    (HNone : P VNone)
    (HStr : ∀ s, P (VStr s))
    (HDict : ∀ d, Forall (λ kv, P kv.2) d → P (VDict d)) :
    ∀ v, P v :=
  fix go (v : pyval) : P v :=
    match v with
    | VNone => HNone
    | VStr s => HStr s
    | VDict d =>
        HDict d ((fix entries (l : list (string * pyval)) :
                    Forall (λ kv, P kv.2) l :=
                    match l with
                    | [] => List.Forall_nil _
                    | kv :: l' => @List.Forall_cons _ _ kv l' (go kv.2) (entries l')
                    end) d)
    end.

(** The exceptions the modelled code can raise.  [KeyError] comes from a
    failed dictionary lookup, [TypeError] from subscripting, iterating or
    storing into a value that does not support it, [ValueError] from
    [str.split] with an empty separator and from [json.loads],
    [NotImplementedError] from [_get_iterator], [RecursionError] from
    exceeding the interpreter's recursion limit and [OSError] from
    [open]. *)
Inductive exn :=
| KeyError
| TypeError
| ValueError
| NotImplementedError
| RecursionError
| OSError.

Inductive result (A : Type) :=
| Ok (a : A)
| Raise (e : exn).
Arguments Ok {A} a.
Arguments Raise {A} e.

#[global] Instance result_ret : MRet result := λ A, Ok.

#[global] Instance result_bind : MBind result := λ A B k r,
  match r with
  | Ok a => k a
  | Raise e => Raise e
  end.

(** ** Dictionaries *)

(** [d[key]] on a dictionary: the entry, or nothing ([KeyError]). *)
Fixpoint dict_get (d : list (string * pyval)) (key : string) : option pyval :=
  match d with
  | [] => None
  | (k, v) :: d' => if String.eqb k key then Some v else dict_get d' key
  end.

(** [d[key] = value] on a dictionary: an existing entry keeps its place,
    a new key is appended. *)
Fixpoint dict_set (d : list (string * pyval)) (key : string) (value : pyval)
    : list (string * pyval) :=
  match d with
  | [] => [(key, value)]
  | (k, v) :: d' =>
      if String.eqb k key then (k, value) :: d'
      else (k, v) :: dict_set d' key value
  end.

(** [curr_node[char]] for a string subscript. *)
Definition getitem (curr_node : pyval) (char : string) : result pyval :=
  match curr_node with
  | VDict d =>
      match dict_get d char with
      | Some v => Ok v
      | None => Raise KeyError
      end
  | VStr _ => Raise TypeError  (* string indices must be integers *)
  | VNone => Raise TypeError   (* 'NoneType' object is not subscriptable *)
  end.

(** [curr_node[key] = value]. *)
Definition setitem (curr_node : pyval) (key : string) (value : pyval)
    : result pyval :=
  match curr_node with
  | VDict d => Ok (VDict (dict_set d key value))
  | VStr _ => Raise TypeError  (* no item assignment on 'str' *)
  | VNone => Raise TypeError   (* no item assignment on 'NoneType' *)
  end.

(** ['' in curr_node]. *)
Definition contains_empty (curr_node : pyval) : result bool :=
  match curr_node with
  | VDict d => Ok (bool_decide (is_Some (dict_get d "")))
  | VStr _ => Ok true          (* '' is a substring of every str *)
  | VNone => Raise TypeError   (* 'NoneType' is not iterable *)
  end.

(** ** Strings *)

(** Iterating a [str]: its characters, each a one-character string. *)
Fixpoint chars (s : string) : list string :=
  match s with
  | EmptyString => []
  | String c s' => String c EmptyString :: chars s'
  end.

(** [word.split(sep)] for a non-empty separator: cut at every occurrence
    of [sep], scanning from the left; [skip] counts the characters of the
    occurrence being stepped over and [acc] is the piece read so far. *)
Fixpoint split_go (sep : string) (skip : nat) (acc : string) (s : string)
    : list string :=
  match s with
  | EmptyString => [acc]
  | String c s' =>
      match skip with
      | S n => split_go sep n acc s'
      | O =>
          if String.prefix sep s
          then acc :: split_go sep (String.length sep - 1) "" s'
          else split_go sep 0 (acc +:+ String c "") s'
      end
  end.

Definition str_split (word sep : string) : result (list string) :=
  if String.eqb sep "" then Raise ValueError  (* empty separator *)
  else Ok (split_go sep 0 "" word).

(** ** The trie *)

(** The [trie_type] argument of the constructor: a member of [TYPES], or
    any other Python value. *)
Inductive trie_type :=
| Known (t : TYPES)
| Other (v : pyval).

(** An instance of [Trie] (trie.py:103-106) together with its slice of
    the memoization cache.  The [memoize] object wrapped around
    [__contains__] is shared by all instances, but [memoize.__get__]
    binds the instance as first argument, so every cache key is a tuple
    [(instance, word)]; [Trie] defines no [__eq__] or [__hash__], so
    instances compare by identity and the entries of different instances
    never meet.  [cache] holds the entries whose first component is this
    instance, keyed by [word]. *)
Record Trie := mkTrie {
  root : pyval;
  type : trie_type;
  delimiter : string;
  cache : gmap string bool
}.

(** [Trie.__init__] (trie.py:103-106); no cache entry mentions a new
    instance. *)
Definition Trie_init (trie_type : trie_type) (delimiter : string) : Trie :=
  {| root := VDict []; type := trie_type; delimiter := delimiter; cache := ∅ |}.

Definition set_root (self : Trie) (r : pyval) : Trie :=
  {| root := r; type := type self; delimiter := delimiter self;
     cache := cache self |}.

Definition set_cache (self : Trie) (c : gmap string bool) : Trie :=
  {| root := root self; type := type self; delimiter := delimiter self;
     cache := c |}.

(** [Trie._get_iterator] (trie.py:225-236). *)
Definition _get_iterator (self : Trie) (word : string) : result (list string) :=
  match type self with
  | Known STANDARD => Ok (chars word)
  | Known EXTENDED => str_split word (delimiter self)
  | Other _ => Raise NotImplementedError
  end.

(** The loop [for char in iterator: curr_node = curr_node[char]] of
    [__contains__] (trie.py:133-138) and [autocomplete] (trie.py:244-249);
    the exception of a failed step is handed to the [except] clause of
    the method. *)
Fixpoint descend (curr_node : pyval) (iterator : list string) : result pyval :=
  match iterator with
  | [] => Ok curr_node
  | char :: rest => child ← getitem curr_node char; descend child rest
  end.

(** The body of [Trie.__contains__] (trie.py:125-143). *)
Definition __contains__ (self : Trie) (word : string) : result bool :=
  iterator ← _get_iterator self word;
  match descend (root self) iterator with
  | Ok curr_node => contains_empty curr_node
  | Raise KeyError => Ok false
  | Raise e => Raise e
  end.

(** [memoize.__call__] (trie.py:52-62) for the arguments [(self, word)]
    that [memoize.__get__] (trie.py:64-67) passes on when the method is
    reached through an instance.  A [str] is hashable, so the lookup
    raises [KeyError] or nothing and the [TypeError] branch is not taken;
    an exception of [func] leaves the cache as it was. *)
Definition memoize_call (func : Trie → string → result bool)
    (self : Trie) (word : string) : result bool * Trie :=
  match cache self !! word with
  | Some value => (Ok value, self)
  | None =>
      match func self word with
      | Ok value => (Ok value, set_cache self (<[word := value]> (cache self)))
      | Raise e => (Raise e, self)
      end
  end.

(** [word in trie]: the decorated [__contains__] (trie.py:124). *)
Definition contains (self : Trie) (word : string) : result bool * Trie :=
  memoize_call __contains__ self word.

(** The attribute values [assign] is modelled for: [None] and strings.
    The method stores any object (trie.py:183); numbers, tuples, lists
    and dictionaries as values, and names that are no strings, are
    outside the model. *)
Inductive attr_value :=
| ANone
| AStr (s : string).

Definition attr_val (a : attr_value) : pyval :=
  match a with
  | ANone => VNone
  | AStr s => VStr s
  end.

(** The loop and the final store of [Trie.assign] (trie.py:169-183) on
    the node graph. *)
Fixpoint assign_from (curr_node : pyval) (iterator : list string)
    (key : string) (value : pyval) : result pyval :=
  match iterator with
  | [] => setitem curr_node key value
  | char :: rest =>
      child ← getitem curr_node char;
      child' ← assign_from child rest key value;
      setitem curr_node char child'
  end.

(** [Trie.assign] (trie.py:165-183): a [KeyError] of the loop returns. *)
Definition assign (self : Trie) (word key : string) (value : attr_value)
    : result unit * Trie :=
  match _get_iterator self word with
  | Raise e => (Raise e, self)
  | Ok iterator =>
      match assign_from (root self) iterator key (attr_val value) with
      | Ok r => (Ok (), set_root self r)
      | Raise KeyError => (Ok (), self)
      | Raise e => (Raise e, self)
      end
  end.

(** The loop and the final store of [Trie.add] (trie.py:189-201) on the
    node graph.  A step can only raise [TypeError] while existing nodes
    are followed, before anything is created, so a raised exception
    leaves the graph as it was. *)
Fixpoint add_from (curr_node : pyval) (iterator : list string) (word : string)
    : result pyval :=
  match iterator with
  | [] => setitem curr_node "" (VStr word)
  | char :: rest =>
      match getitem curr_node char with
      | Ok child =>
          child' ← add_from child rest word; setitem curr_node char child'
      | Raise KeyError =>
          child' ← add_from (VDict []) rest word; setitem curr_node char child'
      | Raise e => Raise e
      end
  end.

(** [Trie.add] (trie.py:185-201). *)
Definition add (self : Trie) (word : string) : result unit * Trie :=
  match _get_iterator self word with
  | Raise e => (Raise e, self)
  | Ok iterator =>
      match add_from (root self) iterator word with
      | Ok r => (Ok (), set_root self r)
      | Raise e => (Raise e, self)
      end
  end.

(** [Trie.update] (trie.py:203-208). *)
Fixpoint update (self : Trie) (words : list string) : result unit * Trie :=
  match words with
  | [] => (Ok (), self)
  | word :: rest =>
      match add self word with
      | (Ok _, self') => update self' rest
      | (Raise e, self') => (Raise e, self')
      end
  end.

(** ** Completion *)

(** What iterating a generator to its end produces: the objects it
    yields, each either a plain value or another (not yet started)
    generator, and the exception that ends it, if any.  A generator body
    only runs when it is iterated, so an exception inside it surfaces at
    that point of the enclosing iteration. *)
Unset Elimination Schemes.
Inductive item :=
| IVal (v : pyval)
| IGen (items : list item) (stop : option exn).
Set Elimination Schemes.

Definition item_ind (P : item → Prop)
    (HVal : ∀ v, P (IVal v))
    (HGen : ∀ items stop, Forall P items → P (IGen items stop)) :
    ∀ i, P i :=
  fix go (i : item) : P i :=
    match i with
    | IVal v => HVal v
    | IGen items stop =>
        HGen items stop
          ((fix all (l : list item) : Forall P l :=
              match l with
              | [] => List.Forall_nil _
              | x :: l' => @List.Forall_cons _ _ x l' (go x) (all l')
              end) items)
    end.

(** [Trie._traverse] (trie.py:210-215).  Over a dictionary, [char] runs
    through the keys and [curr_node[char]] is the value stored with the
    key being visited.  Over a non-empty [str], the first character is
    not [''] and subscripting the string with it raises [TypeError]. *)
Fixpoint _traverse (curr_node : pyval) : item :=
  match curr_node with
  | VDict d =>
      IGen (map (λ '(char, child),
                   if String.eqb char "" then IVal child
                   else _traverse child) d) None
  | VStr EmptyString => IGen [] None
  | VStr (String _ _) => IGen [] (Some TypeError)
  | VNone => IGen [] (Some TypeError)  (* 'NoneType' is not iterable *)
  end.

(** [getattr(i, '__iter__', False)] (trie.py:219): generators,
    dictionaries and, in Python 3, strings have an [__iter__]. *)
Definition has_iter (i : item) : bool :=
  match i with
  | IGen _ _ => true
  | IVal (VDict _) => true
  | IVal (VStr _) => true
  | IVal VNone => false
  end.

(** [for i in iterable]: the objects an iteration visits and how it
    ends.  A dictionary iterates its keys, a string its characters. *)
Definition iterate (iterable : item) : list item * option exn :=
  match iterable with
  | IGen items stop => (items, stop)
  | IVal (VDict d) => (map (λ kv, IVal (VStr kv.1)) d, None)
  | IVal (VStr s) => (map (λ c, IVal (VStr c)) (chars s), None)
  | IVal VNone => ([], Some TypeError)
  end.

(** The loop of [Trie._smash] (trie.py:218-223), with [smash] standing
    for the recursive call [self._smash(i)]: the yielded values, and the
    exception that cut the loop short, if any. *)
Fixpoint smash_loop (smash : item → list pyval * option exn)
    (items : list item) (stop : option exn) : list pyval * option exn :=
  match items with
  | [] => ([], stop)
  | i :: rest =>
      if has_iter i then
        match smash i with
        | (js, Some e) => (js, Some e)
        | (js, None) =>
            let '(ks, e) := smash_loop smash rest stop in (js ++ ks, e)
        end
      else
        match i with
        | IVal v => let '(ks, e) := smash_loop smash rest stop in (v :: ks, e)
        | IGen _ _ => smash_loop smash rest stop
        end
  end.

(** [Trie._smash] (trie.py:217-223) run to its end.  [depth] is the
    number of nested [_smash] frames the interpreter's recursion limit
    still allows; entering a frame beyond it raises [RecursionError]. *)
Fixpoint _smash (depth : nat) (iterable : item) : list pyval * option exn :=
  match depth with
  | O => ([], Some RecursionError)
  | S depth' =>
      let '(items, stop) := iterate iterable in
      smash_loop (_smash depth') items stop
  end.

(** The [prefix] argument of [autocomplete]: a string, or a list of
    tokens. *)
Inductive pyiter :=
| PStr (s : string)
| PList (l : list string).

(** [for char in prefix]. *)
Definition iter_prefix (prefix : pyiter) : list string :=
  match prefix with
  | PStr s => chars s
  | PList l => l
  end.

(** What [autocomplete] returns: the list [[]], or the generator
    [self._smash(g)], which has not run yet. *)
Inductive completions :=
| EmptyList
| Smash (g : item).

(** [Trie.autocomplete] (trie.py:238-251). *)
Definition autocomplete (self : Trie) (prefix : pyiter) : result completions :=
  match descend (root self) (iter_prefix prefix) with
  | Ok curr_node => Ok (Smash (_traverse curr_node))
  | Raise KeyError => Ok EmptyList
  | Raise e => Raise e
  end.

(** [list(c)] under recursion limit [depth]: the elements obtained and
    the exception raised while collecting them, if any. *)
Definition consume (depth : nat) (c : completions) : list pyval * option exn :=
  match c with
  | EmptyList => ([], None)
  | Smash g => _smash depth g
  end.

(** [list(self.autocomplete(prefix))]. *)
Definition autocomplete_list (depth : nat) (self : Trie) (prefix : pyiter)
    : list pyval * option exn :=
  match autocomplete self prefix with
  | Ok c => consume depth c
  | Raise e => ([], Some e)
  end.

(** ** The JSON text of a node graph

    [json.dumps] and [json.loads] of the standard library, for the
    values of [pyval] and their default arguments.  Characters are the
    code points below 256.  A text that denotes a value outside [pyval]
    (a number, an array, a boolean, a character from 256 on) is outside
    the model; [json_loads] rejects it like a malformed text.  The
    nesting bound of the library is not modelled. *)

Definition dquote : ascii := "034"%char.
Definition backslash : ascii := "092"%char.

Definition hex_digit (n : nat) : ascii :=
  match n with
  | 0 => "0" | 1 => "1" | 2 => "2" | 3 => "3" | 4 => "4" | 5 => "5"
  | 6 => "6" | 7 => "7" | 8 => "8" | 9 => "9" | 10 => "a" | 11 => "b"
  | 12 => "c" | 13 => "d" | 14 => "e" | _ => "f"
  end%char.

(** One character of a string literal under [ensure_ascii=True]: the
    short escapes, the printable characters, and [\u00xx] otherwise. *)
Definition escape_char (c : ascii) : string :=
  let n := nat_of_ascii c in
  if Ascii.eqb c dquote then String backslash (String dquote "")
  else if Ascii.eqb c backslash then String backslash (String backslash "")
  else if Nat.eqb n 8 then String backslash "b"
  else if Nat.eqb n 12 then String backslash "f"
  else if Nat.eqb n 10 then String backslash "n"
  else if Nat.eqb n 13 then String backslash "r"
  else if Nat.eqb n 9 then String backslash "t"
  else if Nat.leb 32 n && Nat.leb n 126 then String c ""
  else String backslash
         (String "u" (String "0" (String "0"
            (String (hex_digit (n / 16)) (String (hex_digit (n mod 16)) ""))))).

Fixpoint escape_all (s : string) : string :=
  match s with
  | EmptyString => ""
  | String c s' => escape_char c +:+ escape_all s'
  end.

Definition encode_string (s : string) : string :=
  String dquote (escape_all s +:+ String dquote "").

(** [', '.join(members)]. *)
Fixpoint join_members (members : list string) : string :=
  match members with
  | [] => ""
  | [m] => m
  | m :: rest => m +:+ ", " +:+ join_members rest
  end.

(** [json.dumps(v)]: item separator [", "], key separator [": "]. *)
Fixpoint json_dumps (v : pyval) : string :=
  match v with
  | VNone => "null"
  | VStr s => encode_string s
  | VDict d =>
      "{" +:+
      join_members
        (map (λ '(k, x), encode_string k +:+ ": " +:+ json_dumps x) d)
      +:+ "}"
  end.

(** JSON whitespace: space, tab, line feed, carriage return. *)
Definition is_ws (c : ascii) : bool :=
  let n := nat_of_ascii c in
  Nat.eqb n 32 || Nat.eqb n 9 || Nat.eqb n 10 || Nat.eqb n 13.

Fixpoint skip_ws (s : string) : string :=
  match s with
  | EmptyString => ""
  | String c s' => if is_ws c then skip_ws s' else s
  end.

Definition hex_val (c : ascii) : option nat :=
  let n := nat_of_ascii c in
  if Nat.leb 48 n && Nat.leb n 57 then Some (n - 48)
  else if Nat.leb 97 n && Nat.leb n 102 then Some (n - 87)
  else if Nat.leb 65 n && Nat.leb n 70 then Some (n - 55)
  else None.

(** The character of a short escape [\c]. *)
Definition unescape (c : ascii) : option ascii :=
  if Ascii.eqb c dquote then Some dquote
  else if Ascii.eqb c backslash then Some backslash
  else if Ascii.eqb c "/" then Some "/"%char
  else if Ascii.eqb c "b" then Some "008"%char
  else if Ascii.eqb c "f" then Some "012"%char
  else if Ascii.eqb c "n" then Some "010"%char
  else if Ascii.eqb c "r" then Some "013"%char
  else if Ascii.eqb c "t" then Some "009"%char
  else None.

(** The decoder's string scanner, started after the opening quote: the
    string read and the text after the closing quote. *)
Fixpoint scanstring (s : string) : option (string * string) :=
  match s with
  | EmptyString => None
  | String c s' =>
      if Ascii.eqb c dquote then Some ("", s')
      else if Ascii.eqb c backslash then
        match s' with
        | EmptyString => None
        | String e s'' =>
            if Ascii.eqb e "u" then
              match s'' with
              | String h1 (String h2 (String h3 (String h4 s3))) =>
                  a ← hex_val h1; b ← hex_val h2;
                  c ← hex_val h3; d ← hex_val h4;
                  let n := ((a * 16 + b) * 16 + c) * 16 + d in
                  if Nat.ltb n 256 then
                    '(t, r) ← scanstring s3; Some (String (ascii_of_nat n) t, r)
                  else None
              | _ => None
              end
            else
              x ← unescape e;
              '(t, r) ← scanstring s''; Some (String x t, r)
        end
      else if Nat.ltb (nat_of_ascii c) 32 then None
      else '(t, r) ← scanstring s'; Some (String c t, r)
  end.

(** [dict(pairs)]. *)
Definition dict_of_pairs (pairs : list (string * pyval)) : list (string * pyval) :=
  fold_left (λ d kv, dict_set d kv.1 kv.2) pairs [].

(** The decoder's value scanner and, for an object, the loop over its
    members, started after the opening quote of a member name.  Both
    return what they read and the text that follows. *)
Fixpoint scan_once (fuel : nat) (s : string) : option (pyval * string) :=
  match fuel with
  | O => None
  | S fuel' =>
      match s with
      | EmptyString => None
      | String c s1 =>
          if Ascii.eqb c "{" then
            match skip_ws s1 with
            | EmptyString => None
            | String c' s2 =>
                if Ascii.eqb c' "}" then Some (VDict [], s2)
                else if Ascii.eqb c' dquote then
                  '(pairs, r) ← scan_members fuel' s2;
                  Some (VDict (dict_of_pairs pairs), r)
                else None
            end
          else if Ascii.eqb c dquote then
            '(t, r) ← scanstring s1; Some (VStr t, r)
          else
            match s with
            | String "n" (String "u" (String "l" (String "l" r))) =>
                Some (VNone, r)
            | _ => None
            end
      end
  end
with scan_members (fuel : nat) (s : string)
    : option (list (string * pyval) * string) :=
  match fuel with
  | O => None
  | S fuel' =>
      '(key, s1) ← scanstring s;
      match skip_ws s1 with
      | EmptyString => None
      | String c s2 =>
          if Ascii.eqb c ":" then
            '(value, s3) ← scan_once fuel' (skip_ws s2);
            match skip_ws s3 with
            | EmptyString => None
            | String c' s4 =>
                if Ascii.eqb c' "}" then Some ([(key, value)], s4)
                else if Ascii.eqb c' "," then
                  match skip_ws s4 with
                  | EmptyString => None
                  | String c'' s5 =>
                      if Ascii.eqb c'' dquote then
                        '(pairs, r) ← scan_members fuel' s5;
                        Some ((key, value) :: pairs, r)
                      else None
                  end
                else None
            end
          else None
      end
  end.

(** [json.loads(s)]: one value between optional whitespace; anything
    else raises [json.JSONDecodeError], a [ValueError]. *)
Definition json_loads (s : string) : result pyval :=
  match scan_once (String.length s) (skip_ws s) with
  | Some (obj, r) =>
      if String.eqb (skip_ws r) "" then Ok obj else Raise ValueError
  | None => Raise ValueError
  end.

(** ** Files *)

Definition newline : ascii := "010"%char.
Definition carriage_return : ascii := "013"%char.

(** The text files a trie is written to and read from, by name, and the
    names [open] refuses. *)
Record filesystem := mkFs {
  files : gmap string string;
  denied : gset string
}.

(** [input_file.readline()] at the start of a file opened in text mode:
    the text up to and including the first line end.  With universal
    newlines a line ends at a line feed, at a carriage return or at a
    carriage return followed by a line feed, and each of them is handed
    on as a line feed. *)
Fixpoint readline (text : string) : string :=
  match text with
  | EmptyString => ""
  | String c text' =>
      if Ascii.eqb c newline || Ascii.eqb c carriage_return
      then String newline ""
      else String c (readline text')
  end.

(** [Trie.unload] (trie.py:145-152): mode ['w+'] replaces the file.
    The text is computed before the file is opened.  [json.dumps] raises
    [RecursionError] on a graph nested deeper than the recursion limit of
    the interpreter allows, and [json.loads] likewise on a text nested
    that deep; this bound is not modelled, and the statements on
    persistence are made for calls that returned normally. *)
Definition unload (self : Trie) (filename : string) (fs : filesystem)
    : result unit * filesystem :=
  let data := json_dumps (root self) +:+ String newline "" in
  if decide (filename ∈ denied fs) then (Raise OSError, fs)
  else (Ok (), {| files := <[filename := data]> (files fs);
                  denied := denied fs |}).

(** [Trie.load] (trie.py:154-163). *)
Definition load (self : Trie) (filename : string) (fs : filesystem)
    : result unit * Trie :=
  if decide (filename ∈ denied fs) then (Raise OSError, self)
  else
    match files fs !! filename with
    | None => (Raise OSError, self)
    | Some text =>
        match json_loads (readline text) with
        | Ok data => (Ok (), set_root self data)
        | Raise e => (Raise e, self)
        end
    end.

(** ** Sequences of calls *)

(** A call of a public method on one trie.  The caller goes on after an
    exception, with the trie as the failed call left it. *)
Inductive op :=
| OpAdd (word : string)
| OpUpdate (words : list string)
| OpAssign (word key : string) (value : attr_value)
| OpContains (word : string)
| OpAutocomplete (prefix : pyiter)
| OpUnload (filename : string)
| OpLoad (filename : string).

Definition step (w : Trie * filesystem) (o : op) : Trie * filesystem :=
  match o with
  | OpAdd word => ((add w.1 word).2, w.2)
  | OpUpdate words => ((update w.1 words).2, w.2)
  | OpAssign word key value => ((assign w.1 word key value).2, w.2)
  | OpContains word => ((contains w.1 word).2, w.2)
  | OpAutocomplete prefix => w
  | OpUnload filename => (w.1, (unload w.1 filename w.2).2)
  | OpLoad filename => ((load w.1 filename w.2).2, w.2)
  end.

Definition run (ops : list op) (w : Trie * filesystem) : Trie * filesystem :=
  fold_left step ops w.

(** ** The methods as programs over a store

    The definitions above hand the node graph from call to call as a
    value.  To say what a method leaves untouched, the methods are
    written here once more, statement by statement, as programs that run
    in the state the interpreter keeps for a trie: the dictionary
    objects, each with its identity, the attributes of [self], and the
    entries of the memoization cache for [self].  A program can read and
    write all of it. *)

Module Store.

(** The identity of a dictionary object. *)
Definition ref := positive.

(** What a variable, an attribute or a dictionary entry holds: [None],
    a string, or a reference to a dictionary. *)
Inductive obj :=
| ONone
| OStr (s : string)
| ORef (r : ref).

Record state := mkState {
  dicts : gmap ref (list (string * obj));
  self_root : obj;
  self_type : trie_type;
  self_delimiter : string;
  memo : gmap string bool
}.

Definition set_dicts (σ : state) (ds : gmap ref (list (string * obj))) : state :=
  {| dicts := ds; self_root := self_root σ; self_type := self_type σ;
     self_delimiter := self_delimiter σ; memo := memo σ |}.

Definition set_memo (σ : state) (m : gmap string bool) : state :=
  {| dicts := dicts σ; self_root := self_root σ; self_type := self_type σ;
     self_delimiter := self_delimiter σ; memo := m |}.

(** A statement or a method body: it returns or raises, and leaves a
    state behind. *)
Definition prog (A : Type) : Type := state → result A * state.

Definition ret {A} (a : A) : prog A := λ σ, (Ok a, σ).

Definition bind {A B} (m : prog A) (k : A → prog B) : prog B := λ σ,
  match m σ with
  | (Ok a, σ') => k a σ'
  | (Raise e, σ') => (Raise e, σ')
  end.

(** The entries of the dictionary [r], in insertion order. *)
Definition entries (σ : state) (r : ref) : list (string * obj) :=
  default [] (dicts σ !! r).

Fixpoint entry_get (es : list (string * obj)) (key : string) : option obj :=
  match es with
  | [] => None
  | (k, v) :: es' => if String.eqb k key then Some v else entry_get es' key
  end.

Fixpoint entry_set (es : list (string * obj)) (key : string) (value : obj)
    : list (string * obj) :=
  match es with
  | [] => [(key, value)]
  | (k, v) :: es' =>
      if String.eqb k key then (k, value) :: es'
      else (k, v) :: entry_set es' key value
  end.

(** [self.root]. *)
Definition get_root : prog obj := λ σ, (Ok (self_root σ), σ).

(** [curr_node[char]]. *)
Definition getitem (curr_node : obj) (char : string) : prog obj := λ σ,
  match curr_node with
  | ORef r =>
      match entry_get (entries σ r) char with
      | Some v => (Ok v, σ)
      | None => (Raise KeyError, σ)
      end
  | OStr _ => (Raise TypeError, σ)
  | ONone => (Raise TypeError, σ)
  end.

(** [curr_node[key] = value]: the dictionary object is changed in
    place. *)
Definition setitem (curr_node : obj) (key : string) (value : obj)
    : prog unit := λ σ,
  match curr_node with
  | ORef r =>
      (Ok (), set_dicts σ (<[r := entry_set (entries σ r) key value]> (dicts σ)))
  | OStr _ => (Raise TypeError, σ)
  | ONone => (Raise TypeError, σ)
  end.

(** [{}]: a new dictionary object. *)
Definition new_dict : prog obj := λ σ,
  let r := fresh (dom (dicts σ)) in
  (Ok (ORef r), set_dicts σ (<[r := []]> (dicts σ))).

(** ['' in curr_node]. *)
Definition contains_empty (curr_node : obj) : prog bool := λ σ,
  match curr_node with
  | ORef r => (Ok (bool_decide (is_Some (entry_get (entries σ r) ""))), σ)
  | OStr _ => (Ok true, σ)
  | ONone => (Raise TypeError, σ)
  end.

(** A new instance (trie.py:103-106): [self.root] is a new, empty
    dictionary. *)
Definition Trie_init (trie_type : trie_type) (delimiter : string) : state :=
  {| dicts := {[ 1%positive := [] ]}; self_root := ORef 1%positive;
     self_type := trie_type; self_delimiter := delimiter; memo := ∅ |}.

(** [Trie._get_iterator] (trie.py:225-236). *)
Definition _get_iterator (word : string) : prog (list string) := λ σ,
  match self_type σ with
  | Known STANDARD => (Ok (chars word), σ)
  | Known EXTENDED => (str_split word (self_delimiter σ), σ)
  | Other _ => (Raise NotImplementedError, σ)
  end.

(** The loop and the final test of [__contains__] (trie.py:133-143). *)
Fixpoint contains_loop (curr_node : obj) (iterator : list string) : prog bool :=
  match iterator with
  | [] =>
      bind (contains_empty curr_node) (λ found,
      if found then ret true else ret false)
  | char :: rest => λ σ,
      match getitem curr_node char σ with
      | (Ok child, σ') => contains_loop child rest σ'
      | (Raise KeyError, σ') => (Ok false, σ')
      | (Raise e, σ') => (Raise e, σ')
      end
  end.

(** The body of [Trie.__contains__] (trie.py:125-143). *)
Definition __contains__ (word : string) : prog bool :=
  bind get_root (λ curr_node,
  bind (_get_iterator word) (λ iterator,
  contains_loop curr_node iterator)).

(** [memoize.__call__] (trie.py:52-62) for the arguments [(self, word)];
    the entry is stored in the state the call of [func] left. *)
Definition memoize_call (func : string → prog bool) (word : string)
    : prog bool := λ σ,
  match memo σ !! word with
  | Some value => (Ok value, σ)
  | None =>
      match func word σ with
      | (Ok value, σ') => (Ok value, set_memo σ' (<[word := value]> (memo σ')))
      | (Raise e, σ') => (Raise e, σ')
      end
  end.

(** [word in trie]. *)
Definition contains (word : string) : prog bool :=
  memoize_call __contains__ word.

(** The loop and the final store of [Trie.add] (trie.py:193-201). *)
Fixpoint add_loop (curr_node : obj) (iterator : list string) (word : string)
    : prog unit :=
  match iterator with
  | [] => setitem curr_node "" (OStr word)
  | char :: rest => λ σ,
      match getitem curr_node char σ with
      | (Ok child, σ') => add_loop child rest word σ'
      | (Raise KeyError, σ') =>
          bind new_dict (λ made,
          bind (setitem curr_node char made) (λ _,
          bind (getitem curr_node char) (λ child,
          add_loop child rest word))) σ'
      | (Raise e, σ') => (Raise e, σ')
      end
  end.

(** [Trie.add] (trie.py:185-201). *)
Definition add (word : string) : prog unit :=
  bind get_root (λ curr_node,
  bind (_get_iterator word) (λ iterator,
  add_loop curr_node iterator word)).

(** The loop and the final store of [Trie.assign] (trie.py:173-183). *)
Fixpoint assign_loop (curr_node : obj) (iterator : list string)
    (key : string) (value : obj) : prog unit :=
  match iterator with
  | [] => setitem curr_node key value
  | char :: rest => λ σ,
      match getitem curr_node char σ with
      | (Ok child, σ') => assign_loop child rest key value σ'
      | (Raise KeyError, σ') => (Ok (), σ')
      | (Raise e, σ') => (Raise e, σ')
      end
  end.

(** [Trie.assign] (trie.py:165-183). *)
Definition assign (word key : string) (value : attr_value) : prog unit :=
  bind get_root (λ curr_node,
  bind (_get_iterator word) (λ iterator,
  assign_loop curr_node iterator key
    match value with ANone => ONone | AStr s => OStr s end)).

(** An object met while a completion is collected: a value, or the
    generator [self._traverse(curr_node)], which has not run yet. *)
Inductive item :=
| IVal (o : obj)
| ITraverse (curr_node : obj).

(** What iterating something to its end produces: the objects it yields
    and the exception that ends it, if any; and the state it leaves. *)
Definition gen (A : Type) : Type := state → (list A * option exn) * state.

(** The body of [Trie._traverse] (trie.py:210-215), run to its end. *)
Definition _traverse (curr_node : obj) : gen item := λ σ,
  match curr_node with
  | ORef r =>
      ((map (λ '(char, child),
               if String.eqb char "" then IVal child else ITraverse child)
            (entries σ r), None), σ)
  | OStr EmptyString => (([], None), σ)
  | OStr (String _ _) => (([], Some TypeError), σ)
  | ONone => (([], Some TypeError), σ)
  end.

(** [getattr(i, '__iter__', False)] (trie.py:219). *)
Definition has_iter (i : item) : bool :=
  match i with
  | ITraverse _ => true
  | IVal (ORef _) => true
  | IVal (OStr _) => true
  | IVal ONone => false
  end.

(** [for i in iterable]. *)
Definition iterate (iterable : item) : gen item := λ σ,
  match iterable with
  | ITraverse curr_node => _traverse curr_node σ
  | IVal (ORef r) => ((map (λ kv, IVal (OStr kv.1)) (entries σ r), None), σ)
  | IVal (OStr s) => ((map (λ c, IVal (OStr c)) (chars s), None), σ)
  | IVal ONone => (([], Some TypeError), σ)
  end.

(** The loop of [Trie._smash] (trie.py:218-223). *)
Fixpoint smash_loop (smash : item → gen obj)
    (items : list item) (stop : option exn) : gen obj := λ σ,
  match items with
  | [] => (([], stop), σ)
  | i :: rest =>
      if has_iter i then
        match smash i σ with
        | ((js, Some e), σ') => ((js, Some e), σ')
        | ((js, None), σ') =>
            let '((ks, e), σ'') := smash_loop smash rest stop σ' in
            ((js ++ ks, e), σ'')
        end
      else
        match i with
        | IVal v =>
            let '((ks, e), σ') := smash_loop smash rest stop σ in
            ((v :: ks, e), σ')
        | ITraverse _ => smash_loop smash rest stop σ
        end
  end.

(** [Trie._smash] (trie.py:217-223) run to its end under recursion
    limit [depth]. *)
Fixpoint _smash (depth : nat) (iterable : item) : gen obj := λ σ,
  match depth with
  | O => (([], Some RecursionError), σ)
  | S depth' =>
      let '((items, stop), σ') := iterate iterable σ in
      smash_loop (_smash depth') items stop σ'
  end.

(** What [autocomplete] returns: the list [[]], or the generator
    [self._smash(g)]. *)
Inductive completions :=
| EmptyList
| Smash (g : item).

(** The loop and the final [return] of [autocomplete]
    (trie.py:244-251). *)
Fixpoint autocomplete_loop (curr_node : obj) (prefix : list string)
    : prog completions :=
  match prefix with
  | [] => ret (Smash (ITraverse curr_node))
  | char :: rest => λ σ,
      match getitem curr_node char σ with
      | (Ok child, σ') => autocomplete_loop child rest σ'
      | (Raise KeyError, σ') => (Ok EmptyList, σ')
      | (Raise e, σ') => (Raise e, σ')
      end
  end.

(** [Trie.autocomplete] (trie.py:238-251). *)
Definition autocomplete (prefix : pyiter) : prog completions :=
  bind get_root (λ curr_node,
  autocomplete_loop curr_node (iter_prefix prefix)).

(** [list(self.autocomplete(prefix))] under recursion limit [depth]. *)
Definition autocomplete_list (depth : nat) (prefix : pyiter) : gen obj := λ σ,
  match autocomplete prefix σ with
  | (Ok EmptyList, σ') => (([], None), σ')
  | (Ok (Smash g), σ') => _smash depth g σ'
  | (Raise e, σ') => (([], Some e), σ')
  end.

(** [Trie.update] (trie.py:203-208). *)
Fixpoint update (words : list string) : prog unit :=
  match words with
  | [] => ret ()
  | word :: rest => bind (add word) (λ _, update rest)
  end.

(** The state after a call of a method that works in memory.  [unload]
    writes a file and leaves the trie as it is; files are not part of
    this reading, so [load] has no state after it here. *)
Definition step (σ : state) (o : op) : option state :=
  match o with
  | OpAdd word => Some (add word σ).2
  | OpUpdate words => Some (update words σ).2
  | OpAssign word key value => Some (assign word key value σ).2
  | OpContains word => Some (contains word σ).2
  | OpAutocomplete prefix => Some (autocomplete prefix σ).2
  | OpUnload _ => Some σ
  | OpLoad _ => None
  end.

Fixpoint run (ops : list op) (σ : state) : option state :=
  match ops with
  | [] => Some σ
  | o :: ops' => σ' ← step σ o; run ops' σ'
  end.

End Store.

(** ** Notions used in the statements and proofs *)

(** Some token of the path is missing from the graph: the tokens before
    it lead from [node] to a dictionary that has no entry for it. *)
Definition token_missing (node : pyval) (iterator : list string) : Prop :=
  ∃ seen char rest d,
    iterator = seen ++ char :: rest ∧
    descend node seen = Ok (VDict d) ∧
    dict_get d char = None.

(** The path of tokens does not fully exist in the graph: following the
    tokens from [node] arrives nowhere. *)
Definition path_absent (node : pyval) (iterator : list string) : Prop :=
  ∀ node', descend node iterator ≠ Ok node'.

(** The walk runs into a stored value that is no dictionary (a terminal
    value or an attribute value) while a token is still to be followed. *)
Definition hits_value (node : pyval) (iterator : list string) : Prop :=
  ∃ seen char rest v,
    iterator = seen ++ char :: rest ∧
    descend node seen = Ok v ∧
    ∀ d, v ≠ VDict d.

(** A tree of generators each of which ends normally or with
    [TypeError], as those of [_traverse] do. *)
Inductive plain_stops : item → Prop :=
| plain_val v : plain_stops (IVal v)
| plain_gen items stop :
    Forall plain_stops items →
    stop = None ∨ stop = Some TypeError →
    plain_stops (IGen items stop).

(** The ways collecting a completion can end. *)
Definition smash_raises (e : option exn) : Prop :=
  e = None ∨ e = Some TypeError ∨ e = Some RecursionError.

(** The trie of the docstring of [Trie] (trie.py:78-80). *)
Definition doctest_trie : Trie :=
  (update (Trie_init (Known STANDARD) ":")
     ["apple"; "applesauce"; "application"; "applejack"; "apricot"]).2.

(** Every Python dictionary has distinct keys; [wf_val] says so for the
    association lists of a value. *)
Fixpoint wf_val (v : pyval) : bool :=
  match v with
  | VDict d => bool_decide (NoDup d.*1) && forallb (λ '(_, x), wf_val x) d
  | _ => true
  end.

(** The terminal value at the end of a path of tokens, if the path leads
    to a dictionary that has one. *)
Definition lookup_path (node : pyval) (path : list string) : option pyval :=
  match descend node path with
  | Ok (VDict d) => dict_get d ""
  | _ => None
  end.

(** Every entry of a node under a token (a key other than ['']) is a
    node again. *)
Fixpoint trie_node (n : pyval) : bool :=
  match n with
  | VDict d =>
      forallb (λ '(k, x), if String.eqb k "" then true else trie_node x) d
  | _ => false
  end.

(** The values at the leaves of the tree of generators [_traverse]
    builds, in the order of the traversal: what a flattening that stops
    at strings would deliver. *)
Fixpoint leaves (i : item) : list pyval :=
  match i with
  | IVal v => [v]
  | IGen items _ => flat_map leaves items
  end.

(** The text of one member of an object, and of a non-empty member
    list, without the opening quote of the first name. *)
Definition member_tail (k : string) (x : pyval) : string :=
  escape_all k +:+ String dquote (": " +:+ json_dumps x).

Fixpoint members_tail (d : list (string * pyval)) : string :=
  match d with
  | [] => ""
  | [(k, x)] => member_tail k x
  | (k, x) :: d' =>
      member_tail k x +:+ ", " +:+ String dquote (members_tail d')
  end.

(** The decoder reads the text of [x] back, whatever text follows, with
    any fuel from the length of the text on. *)
Definition reads_back (x : pyval) : Prop :=
  ∀ fuel X, (String.length (json_dumps x) ≤ fuel)%nat →
    scan_once fuel (json_dumps x +:+ X) = Some (x, X).

(** A text without line feed. *)
Fixpoint one_line (s : string) : bool :=
  match s with
  | EmptyString => true
  | String c s' => negb (Ascii.eqb c newline) && one_line s'
  end.

(** A text without line end: no line feed and no carriage return. *)
Fixpoint no_line_end (s : string) : bool :=
  match s with
  | EmptyString => true
  | String c s' =>
      negb (Ascii.eqb c newline || Ascii.eqb c carriage_return)
      && no_line_end s'
  end.

(** What holds of the trie [loaded.2] that a new trie of the mode and
    delimiter of [self] becomes by a call [loaded] of [load]. *)
Definition roundtrip_agrees (self : Trie) (loaded : result unit * Trie) : Prop :=
  loaded.1 = Ok () ∧
  root loaded.2 = root self ∧
  type loaded.2 = type self ∧
  delimiter loaded.2 = delimiter self ∧
  cache loaded.2 = ∅ ∧
  (∀ prefix, autocomplete loaded.2 prefix = autocomplete self prefix) ∧
  (∀ word, (contains loaded.2 word).1 = __contains__ self word) ∧
  (∀ word, cache self !! word = None →
     (contains loaded.2 word).1 = (contains self word).1).


(** [sep.join(tokens)]. *)
Fixpoint str_join (sep : string) (tokens : list string) : string :=
  match tokens with
  | [] => ""
  | [t] => t
  | t :: rest => t +:+ sep +:+ str_join sep rest
  end.

(** The string that undoes the tokenization of a trie: tokens are
    concatenated in character mode and joined by the delimiter in
    segmented mode. *)
Definition token_glue (self : Trie) : string :=
  match type self with
  | Known EXTENDED => delimiter self
  | _ => ""
  end.


(** The word tokenizes, and none of its tokens is the empty string (the
    key of the terminal marker). *)
Definition clean_tokens (self : Trie) (word : string) : bool :=
  match _get_iterator self word with
  | Ok iterator => forallb (λ t, negb (String.eqb t "")) iterator
  | Raise _ => false
  end.


(** The membership test of [__contains__] on the tokens of a word
    (trie.py:133-143). *)
Definition member_at (node : pyval) (path : list string) : result bool :=
  match descend node path with
  | Ok curr_node => contains_empty curr_node
  | Raise KeyError => Ok false
  | Raise e => Raise e
  end.


(** A call that only asks or writes out: it never changes the node
    graph. *)
Definition is_query (o : op) : bool :=
  match o with
  | OpContains _ | OpAutocomplete _ | OpUnload _ => true
  | _ => false
  end.

(** A call that leaves the file [filename] as it is. *)
Definition keeps_file (filename : string) (o : op) : bool :=
  match o with
  | OpUnload f => negb (String.eqb f filename)
  | _ => true
  end.

(** A call that builds or reads the node graph inside the program:
    every call but [load], which installs whatever value the file
    denotes. *)
Definition builds (o : op) : bool :=
  match o with
  | OpLoad _ => false
  | _ => true
  end.

(** The words a sequence of calls hands to [add], directly or through
    [update]. *)
Definition added (ops : list op) : list string :=
  flat_map (λ o, match o with
                 | OpAdd word => [word]
                 | OpUpdate words => words
                 | _ => []
                 end) ops.

(** Every cached answer is the answer of the undecorated method on the
    present graph. *)
Definition cache_agrees (self : Trie) : Prop :=
  ∀ word b, cache self !! word = Some b → __contains__ self word = Ok b.


(** Every generator of the tree ends normally. *)
Fixpoint stops_none (i : item) : bool :=
  match i with
  | IVal _ => true
  | IGen items None => forallb stops_none items
  | IGen _ (Some _) => false
  end.

(** The store holds the graph [v] at [o]. *)
Inductive holds (ds : gmap Store.ref (list (string * Store.obj)))
    : Store.obj → pyval → Prop :=
| holds_None : holds ds Store.ONone VNone
| holds_Str s : holds ds (Store.OStr s) (VStr s)
| holds_Dict r es d :
    ds !! r = Some es →
    Forall2 (λ e kv, e.1 = kv.1 ∧ holds ds e.2 kv.2) es d →
    holds ds (Store.ORef r) (VDict d).

(** The state [σ] is the trie [self]. *)
Definition models (σ : Store.state) (self : Trie) : Prop :=
  holds (Store.dicts σ) (Store.self_root σ) (root self) ∧
  Store.self_type σ = type self ∧
  Store.self_delimiter σ = delimiter self ∧
  Store.memo σ = cache self.

(** The same for the objects met while a completion is collected. *)
Inductive item_holds (ds : gmap Store.ref (list (string * Store.obj)))
    : Store.item → item → Prop :=
| item_holds_val o v :
    holds ds o v → item_holds ds (Store.IVal o) (IVal v)
| item_holds_gen o v :
    holds ds o v → item_holds ds (Store.ITraverse o) (_traverse v).

(** The store holds the graph [v] at [o] as a tree: the dictionary
    objects of [fp] make up the graph, each at one place only. *)
Inductive owns (ds : gmap Store.ref (list (string * Store.obj)))
    : Store.obj → pyval → gset Store.ref → Prop :=
| owns_None : owns ds Store.ONone VNone ∅
| owns_Str s : owns ds (Store.OStr s) (VStr s) ∅
| owns_Dict r es d fp :
    ds !! r = Some es →
    owns_entries ds es d fp →
    r ∉ fp →
    owns ds (Store.ORef r) (VDict d) ({[r]} ∪ fp)
with owns_entries (ds : gmap Store.ref (list (string * Store.obj)))
    : list (string * Store.obj) → list (string * pyval) → gset Store.ref
      → Prop :=
| owns_nil : owns_entries ds [] [] ∅
| owns_cons k o v es d fp1 fp2 :
    owns ds o v fp1 →
    owns_entries ds es d fp2 →
    fp1 ## fp2 →
    owns_entries ds ((k, o) :: es) ((k, v) :: d) (fp1 ∪ fp2).

Scheme owns_mut := Minimality for owns Sort Prop
  with owns_entries_mut := Minimality for owns_entries Sort Prop.

(** The states agree on the attributes of [self] and on the cache. *)
Definition same_self (σ σ' : Store.state) : Prop :=
  Store.self_root σ' = Store.self_root σ ∧
  Store.self_type σ' = Store.self_type σ ∧
  Store.self_delimiter σ' = Store.self_delimiter σ ∧
  Store.memo σ' = Store.memo σ.

(** What a writing loop does to the store when it has written the graph
    [v'] where [v] was: the objects of the new graph are those of the old
    one and new ones, and no other object has changed. *)
Definition rewrites (σ σ' : Store.state) (o : Store.obj) (v' : pyval)
    (fp : gset Store.ref) : Prop :=
  same_self σ σ' ∧
  ∃ fp', owns (Store.dicts σ') o v' fp' ∧
    (∀ r, r ∈ fp' → r ∈ fp ∨ r ∉ dom (Store.dicts σ)) ∧
    (∀ r, r ∈ dom (Store.dicts σ) → r ∉ fp →
       Store.dicts σ' !! r = Store.dicts σ !! r).

(** The state [σ] is the trie [self], and its dictionary objects form a
    tree. *)
Definition tree_models (σ : Store.state) (self : Trie) : Prop :=
  (∃ fp, owns (Store.dicts σ) (Store.self_root σ) (root self) fp) ∧
  Store.self_type σ = type self ∧
  Store.self_delimiter σ = delimiter self ∧
  Store.memo σ = cache self.

(** * Properties *)

(** ** Strings *)

Example split_segments : str_split "a:b:c" ":" = Ok ["a"; "b"; "c"].
Proof. reflexivity. Qed.

Example split_edge_cases :
  str_split "" ":" = Ok [""] ∧ str_split "a:b:" ":" = Ok ["a"; "b"; ""] ∧
  str_split "aXXXb" "XX" = Ok ["a"; "Xb"] ∧ str_split "ab" "" = Raise ValueError.
Proof. repeat split; reflexivity. Qed.

(** ** Dictionaries *)

Section dict.
Implicit Types (d : list (string * pyval)) (k : string) (v : pyval).

Lemma dict_get_set_eq d k v : dict_get (dict_set d k v) k = Some v.
Proof.
  induction d as [|[k' v'] d IH]; simpl.
  - by rewrite String.eqb_refl.
  - destruct (String.eqb_spec k' k) as [->|Hne]; simpl.
    + by rewrite String.eqb_refl.
    + by destruct (String.eqb_spec k' k).
Qed.

Lemma dict_get_set_ne d k k' v :
  k ≠ k' → dict_get (dict_set d k v) k' = dict_get d k'.
Proof.
  intros Hne. induction d as [|[k0 v0] d IH]; simpl.
  - by destruct (String.eqb_spec k k').
  - destruct (String.eqb_spec k0 k) as [->|Hk]; simpl.
    + by destruct (String.eqb_spec k k').
    + by rewrite IH.
Qed.

Lemma dict_set_set d k v v' : dict_set (dict_set d k v) k v' = dict_set d k v'.
Proof.
  induction d as [|[k0 v0] d IH]; simpl.
  - by rewrite String.eqb_refl.
  - destruct (String.eqb_spec k0 k) as [->|Hk]; simpl.
    + by rewrite String.eqb_refl.
    + destruct (String.eqb_spec k0 k); [done|]. by rewrite IH.
Qed.

Lemma dict_keys_set d k v :
  dict_get d k = None → (dict_set d k v).*1 = d.*1 ++ [k].
Proof.
  induction d as [|[k0 v0] d IH]; simpl; [done|].
  destruct (String.eqb_spec k0 k); [done|]. intros H. csimpl. by rewrite IH.
Qed.

Lemma dict_keys_set_present d k v :
  is_Some (dict_get d k) → (dict_set d k v).*1 = d.*1.
Proof.
  induction d as [|[k0 v0] d IH]; simpl; [by intros [? ?]|].
  destruct (String.eqb_spec k0 k); [done|]. intros H. csimpl. by rewrite IH.
Qed.

Lemma dict_get_None d k : dict_get d k = None ↔ k ∉ d.*1.
Proof.
  induction d as [|[k0 v0] d IH]; simpl.
  - split; [intros _; apply not_elem_of_nil|done].
  - rewrite not_elem_of_cons, <-IH.
    destruct (String.eqb_spec k0 k) as [->|Hne]; split; try done.
    + by intros [? _].
    + by intros [_ ?].
Qed.

Lemma dict_get_elem_of d k v : dict_get d k = Some v → (k, v) ∈ d.
Proof.
  induction d as [|[k0 v0] d IH]; simpl; [done|].
  destruct (String.eqb_spec k0 k) as [->|].
  - intros [= ->]. left.
  - intros H. right. auto.
Qed.
End dict.

(** ** Insertion *)

Lemma setitem_Ok curr_node key value r :
  setitem curr_node key value = Ok r →
  ∃ d, curr_node = VDict d ∧ r = VDict (dict_set d key value).
Proof. destruct curr_node; simpl; intros [= <-]; eauto. Qed.

(** A successful [add] leaves the path of its tokens in the graph, ending
    in a dictionary that maps [''] to the word. *)
Lemma add_from_descend iterator word : ∀ curr_node r,
  add_from curr_node iterator word = Ok r →
  ∃ d, descend r iterator = Ok (VDict d) ∧ dict_get d "" = Some (VStr word).
Proof.
  induction iterator as [|char rest IH]; intros curr_node r; simpl.
  - intros (d & -> & ->)%setitem_Ok. eexists; split; [done|].
    apply dict_get_set_eq.
  - destruct (getitem curr_node char) as [child|[]] eqn:Hget; try done.
    + destruct (add_from child rest word) as [child'|] eqn:Hadd; [|done].
      simpl. intros (d & -> & ->)%setitem_Ok.
      simpl. rewrite dict_get_set_eq. simpl. eauto.
    + destruct (add_from (VDict []) rest word) as [child'|] eqn:Hadd; [|done].
      simpl. intros (d & -> & ->)%setitem_Ok.
      simpl. rewrite dict_get_set_eq. simpl. eauto.
Qed.

(** Adding the same word to the graph a second time changes nothing. *)
Lemma add_from_again iterator word : ∀ curr_node r,
  add_from curr_node iterator word = Ok r →
  add_from r iterator word = Ok r.
Proof.
  induction iterator as [|char rest IH]; intros curr_node r; simpl.
  - intros (d & -> & ->)%setitem_Ok. simpl. by rewrite dict_set_set.
  - destruct (getitem curr_node char) as [child|[]] eqn:Hget; try done.
    + destruct (add_from child rest word) as [child'|] eqn:Hadd; [|done].
      simpl. intros (d & -> & ->)%setitem_Ok.
      simpl. rewrite dict_get_set_eq, (IH _ _ Hadd). simpl.
      by rewrite dict_set_set.
    + destruct (add_from (VDict []) rest word) as [child'|] eqn:Hadd; [|done].
      simpl. intros (d & -> & ->)%setitem_Ok.
      simpl. rewrite dict_get_set_eq, (IH _ _ Hadd). simpl.
      by rewrite dict_set_set.
Qed.

Lemma get_iterator_set_root self r word :
  _get_iterator (set_root self r) word = _get_iterator self word.
Proof. done. Qed.

(** What a successful [add] did to the trie. *)
Lemma add_Ok self word self' :
  add self word = (Ok (), self') →
  ∃ iterator r, _get_iterator self word = Ok iterator ∧
    add_from (root self) iterator word = Ok r ∧ self' = set_root self r.
Proof.
  unfold add. destruct (_get_iterator self word) as [iterator|]; [|done].
  destruct (add_from (root self) iterator word) as [r|] eqn:Hadd; [|done].
  intros [= <-]. eauto.
Qed.

(** C4.  If [add(word)] succeeds and the cache holds no entry for [word],
    the membership query that follows answers [True]. *)
Theorem contains_after_add (self self' : Trie) (word : string) :
  add self word = (Ok (), self') →
  cache self !! word = None →
  (contains self' word).1 = Ok true.
Proof.
  intros (iterator & r & Hit & Hadd & ->)%add_Ok Hmiss.
  destruct (add_from_descend _ _ _ _ Hadd) as (d & Hdesc & Hterm).
  unfold contains, memoize_call. simpl. rewrite Hmiss.
  unfold __contains__. rewrite get_iterator_set_root, Hit. simpl.
  rewrite Hdesc. simpl. rewrite Hterm. by rewrite bool_decide_eq_true_2.
Qed.

Lemma contains_after_add_witness :
  let self := Trie_init (Known STANDARD) ":" in
  (contains (add self "apple").2 "apple").1 = Ok true.
Proof.
  intros self.
  apply (contains_after_add self (add self "apple").2 "apple");
    reflexivity.
Defined.

(** C7.  A second [add] of the same word has the outcome of the first and
    leaves the trie exactly as the first left it: the same node graph
    (the terminal value is stored again, unchanged), mode, delimiter and
    cache, so every later query answers alike. *)
Theorem add_idempotent (self : Trie) (word : string) :
  add (add self word).2 word = add self word.
Proof.
  unfold add at 2 3.
  destruct (_get_iterator self word) as [iterator|e] eqn:Hit; simpl.
  - destruct (add_from (root self) iterator word) as [r|e] eqn:Hadd; simpl.
    + unfold add. rewrite get_iterator_set_root, Hit. simpl.
      by rewrite (add_from_again _ _ _ _ Hadd).
    + unfold add. by rewrite Hit, Hadd.
  - unfold add. by rewrite Hit.
Qed.

(** ** Assignment *)

Lemma descend_app node seen rest :
  descend node (seen ++ rest) = (n ← descend node seen; descend n rest).
Proof.
  revert node. induction seen as [|c seen IH]; intros node; simpl; [done|].
  destruct (getitem node c); simpl; [apply IH|done].
Qed.

(** A token is missing exactly when the loop over the tokens stops with
    [KeyError]. *)
Lemma token_missing_descend node iterator :
  token_missing node iterator ↔ descend node iterator = Raise KeyError.
Proof.
  split.
  - intros (seen & char & rest & d & -> & Hseen & Hnone).
    rewrite descend_app, Hseen. simpl. by rewrite Hnone.
  - revert node. induction iterator as [|c rest IH]; intros node; simpl; [done|].
    destruct node as [|s|d]; simpl; try done.
    destruct (dict_get d c) as [child|] eqn:Hget; simpl.
    + intros (seen & char & rest' & d' & -> & Hseen & Hnone)%IH.
      exists (c :: seen), char, rest', d'. simpl. by rewrite Hget.
    + intros _. by exists [], c, rest, d.
Qed.

Lemma assign_from_missing key value iterator : ∀ node,
  descend node iterator = Raise KeyError →
  assign_from node iterator key value = Raise KeyError.
Proof.
  induction iterator as [|c rest IH]; intros node; simpl; [done|].
  destruct (getitem node c) as [child|e]; simpl; [|done].
  intros H. by rewrite (IH _ H).
Qed.

(** When a token of the word's path is missing from the dictionary the
    walk has reached, [assign] returns normally and the trie is what it
    was: no error, no new node, no change to graph, mode, delimiter or
    cache. *)
Lemma assign_missing_token_noop (self : Trie) (word key : string)
    (value : attr_value) (iterator : list string) :
  _get_iterator self word = Ok iterator →
  token_missing (root self) iterator →
  assign self word key value = (Ok (), self).
Proof.
  intros Hit Hmiss%token_missing_descend. unfold assign. rewrite Hit.
  by rewrite (assign_from_missing _ _ _ _ Hmiss).
Qed.

(** The loop of [assign] hands on whatever exception stops the walk. *)
Lemma assign_from_raise key value iterator : ∀ node e,
  descend node iterator = Raise e →
  assign_from node iterator key value = Raise e.
Proof.
  induction iterator as [|c rest IH]; intros node e; simpl; [done|].
  destruct (getitem node c) as [child|e']; simpl; [|done].
  intros H. by rewrite (IH _ _ H).
Qed.

(** The walk stops with [TypeError] exactly when it runs into a value
    that is no dictionary. *)
Lemma hits_value_descend node iterator :
  hits_value node iterator ↔ descend node iterator = Raise TypeError.
Proof.
  split.
  - intros (seen & char & rest & v & -> & Hseen & Hv).
    rewrite descend_app, Hseen. simpl.
    destruct v as [|s|d]; simpl; try done. by destruct (Hv d).
  - revert node. induction iterator as [|c rest IH]; intros node; simpl; [done|].
    destruct (getitem node c) as [child|e] eqn:Hget; simpl.
    + intros (seen & char & rest' & v & -> & Hseen & Hv)%IH.
      exists (c :: seen), char, rest', v. simpl. by rewrite Hget.
    + intros [= ->]. exists [], c, rest, node.
      split; [done|]. split; [done|]. intros d ->. simpl in Hget.
      by destruct (dict_get d c).
Qed.

(** Walking down the graph raises nothing but [KeyError] and
    [TypeError]. *)
Lemma descend_raises iterator : ∀ node e,
  descend node iterator = Raise e → e = KeyError ∨ e = TypeError.
Proof.
  induction iterator as [|c rest IH]; intros node e; simpl; [done|].
  destruct node as [|s|d]; simpl; try (intros [= <-]; by right).
  destruct (dict_get d c); simpl; [apply IH|intros [= <-]; by left].
Qed.

(** A path is absent exactly when a token is missing or the walk runs
    into a value, and never both. *)
Lemma path_absent_cases node iterator :
  path_absent node iterator ↔
  (token_missing node iterator ∧ ¬ hits_value node iterator) ∨
  (hits_value node iterator ∧ ¬ token_missing node iterator).
Proof.
  rewrite token_missing_descend, hits_value_descend. unfold path_absent.
  split.
  - intros Habs. destruct (descend node iterator) as [node'|e] eqn:Hd.
    + by destruct (Habs node').
    + destruct (descend_raises _ _ _ Hd) as [-> | ->]; [by left|by right].
  - intros [[-> _]|[-> _]] node'; done.
Qed.

(** C6 (as amended).  When the path of the word does not fully exist,
    [assign] creates no node and leaves graph, mode, delimiter and cache
    as they were.  It returns normally when a dictionary on the path has
    no entry for the next token (the [KeyError] the method catches), and
    it raises [TypeError] when the walk runs into a stored value that is
    no dictionary, which the method does not catch. *)
Theorem assign_absent_path (self : Trie) (word key : string)
    (value : attr_value) (iterator : list string) :
  _get_iterator self word = Ok iterator →
  path_absent (root self) iterator →
  (assign self word key value).2 = self ∧
  ((token_missing (root self) iterator ∧
    assign self word key value = (Ok (), self)) ∨
   (hits_value (root self) iterator ∧
    ¬ token_missing (root self) iterator ∧
    assign self word key value = (Raise TypeError, self))).
Proof.
  intros Hit [[Hmiss _]|[Hhits Hnot]]%path_absent_cases.
  - rewrite (assign_missing_token_noop self word key value iterator Hit Hmiss).
    split; [done|]. by left.
  - assert (assign self word key value = (Raise TypeError, self)) as ->.
    { apply hits_value_descend in Hhits. unfold assign. rewrite Hit.
      by rewrite (assign_from_raise _ _ _ _ _ Hhits). }
    split; [done|]. by right.
Qed.

Lemma assign_absent_path_witness :
  let self := (add (Trie_init (Known STANDARD) ":") "apple").2 in
  (assign self "apply" "count" (AStr "3")).2 = self ∧
  ((token_missing (root self) ["a"; "p"; "p"; "l"; "y"] ∧
    assign self "apply" "count" (AStr "3") = (Ok (), self)) ∨
   (hits_value (root self) ["a"; "p"; "p"; "l"; "y"] ∧
    ¬ token_missing (root self) ["a"; "p"; "p"; "l"; "y"] ∧
    assign self "apply" "count" (AStr "3") = (Raise TypeError, self))).
Proof.
  intros self.
  apply (assign_absent_path self "apply" "count" (AStr "3")
           ["a"; "p"; "p"; "l"; "y"]).
  - reflexivity.
  - intros node'. vm_compute. discriminate.
Defined.

(** C6 as stated fails on a path that runs into an attribute value.
    After [add('a')] and [assign('a', 'b', 'x')] the path of [abc] does
    not exist: the node of [a] holds the string [x] under [b], and there
    is no node for [c].  Yet [assign('abc', 'count', '3')] is no silent
    no-op: it raises [TypeError]. *)
Lemma assign_absent_path_raises :
  let self :=
    (run [OpAdd "a"; OpAssign "a" "b" (AStr "x")]
       (Trie_init (Known STANDARD) ":", mkFs ∅ ∅)).1 in
  _get_iterator self "abc" = Ok ["a"; "b"; "c"] ∧
  path_absent (root self) ["a"; "b"; "c"] ∧
  (assign self "abc" "count" (AStr "3")).1 = Raise TypeError ∧
  (assign self "abc" "count" (AStr "3")).1 ≠ Ok ().
Proof.
  intros self. split; [reflexivity|]. split; [|split].
  - intros node'. vm_compute. discriminate.
  - reflexivity.
  - vm_compute. discriminate.
Qed.

(** ** The memoization cache *)

Lemma add_cache self word : cache (add self word).2 = cache self.
Proof.
  unfold add. destruct (_get_iterator self word); [|done].
  by destruct (add_from (root self) _ word).
Qed.

Lemma add_type self word :
  type (add self word).2 = type self ∧
  delimiter (add self word).2 = delimiter self.
Proof.
  unfold add. destruct (_get_iterator self word); [|done].
  by destruct (add_from (root self) _ word).
Qed.

Lemma update_cache words : ∀ self, cache (update self words).2 = cache self.
Proof.
  induction words as [|w ws IH]; intros self; simpl; [done|].
  pose proof (add_cache self w) as Hc.
  destruct (add self w) as [[[]|e] self']; simpl in *; [|done].
  by rewrite IH.
Qed.

Lemma update_type words : ∀ self,
  type (update self words).2 = type self ∧
  delimiter (update self words).2 = delimiter self.
Proof.
  induction words as [|w ws IH]; intros self; simpl; [done|].
  pose proof (add_type self w) as [Ht Hd].
  destruct (add self w) as [[[]|e] self']; simpl in *; [|done].
  destruct (IH self') as [-> ->]. done.
Qed.

Lemma assign_cache self word key value :
  cache (assign self word key value).2 = cache self ∧
  type (assign self word key value).2 = type self ∧
  delimiter (assign self word key value).2 = delimiter self.
Proof.
  unfold assign. destruct (_get_iterator self word); [|done].
  by destruct (assign_from (root self) _ key _) as [|[]].
Qed.

Lemma load_cache self filename fs :
  cache (load self filename fs).2 = cache self ∧
  type (load self filename fs).2 = type self ∧
  delimiter (load self filename fs).2 = delimiter self.
Proof.
  unfold load. destruct (decide _); [done|].
  destruct (files fs !! filename); [|done].
  by destruct (json_loads _).
Qed.

(** [contains] touches the cache only: it keeps every entry and adds at
    most the one for [word]. *)
Lemma contains_frame self word :
  root (contains self word).2 = root self ∧
  type (contains self word).2 = type self ∧
  delimiter (contains self word).2 = delimiter self ∧
  cache self ⊆ cache (contains self word).2.
Proof.
  unfold contains, memoize_call.
  destruct (cache self !! word) eqn:Hc; [done|].
  destruct (__contains__ self word); simpl; [|done].
  repeat split. by apply insert_subseteq.
Qed.

(** A call that returned a value has its answer in the cache. *)
Lemma contains_cached self word b self' :
  contains self word = (Ok b, self') → cache self' !! word = Some b.
Proof.
  unfold contains, memoize_call.
  destruct (cache self !! word) eqn:Hc.
  - by intros [= -> <-].
  - destruct (__contains__ self word); [|done].
    intros [= -> <-]. simpl. apply lookup_insert_eq.
Qed.

(** A cached answer is returned as it is. *)
Lemma contains_hit self word b :
  cache self !! word = Some b → contains self word = (Ok b, self).
Proof. intros Hc. unfold contains, memoize_call. by rewrite Hc. Qed.

(** No call ever removes or rewrites a cache entry. *)
Lemma step_cache w o : cache w.1 ⊆ cache (step w o).1.
Proof.
  destruct o; simpl.
  - by rewrite add_cache.
  - by rewrite update_cache.
  - by destruct (assign_cache w.1 word key value) as [-> _].
  - apply contains_frame.
  - done.
  - done.
  - by destruct (load_cache w.1 filename w.2) as [-> _].
Qed.

Lemma run_cache ops : ∀ w, cache w.1 ⊆ cache (run ops w).1.
Proof.
  induction ops as [|o ops IH]; intros w; simpl; [done|].
  etrans; [apply step_cache|apply IH].
Qed.

(** C2.  Once [contains(word)] has answered [False], it answers [False]
    after any further calls, [add(word)] among them: the cached entry is
    never invalidated. *)
Theorem stale_cache_survives_add (self self1 : Trie) (word : string)
    (before after : list op) (fs : filesystem) :
  contains self word = (Ok false, self1) →
  (contains (run (before ++ OpAdd word :: after) (self1, fs)).1 word).1
  = Ok false.
Proof.
  intros Hc%contains_cached.
  pose proof (run_cache (before ++ OpAdd word :: after) (self1, fs)) as Hsub.
  erewrite contains_hit; [done|].
  by eapply lookup_weaken.
Qed.

Lemma stale_cache_survives_add_witness :
  let self := (add (Trie_init (Known STANDARD) ":") "apple").2 in
  (contains (run ([] ++ OpAdd "appl" :: [])
               ((contains self "appl").2, mkFs ∅ ∅)).1 "appl").1 = Ok false.
Proof.
  intros self.
  apply (stale_cache_survives_add self (contains self "appl").2 "appl"
           [] [] (mkFs ∅ ∅)).
  reflexivity.
Defined.

(** In the scenario of the witness the graph does hold the word: the
    undecorated method answers [True] while the decorated one keeps
    answering [False]. *)
Example stale_cache_scenario :
  let self := (add (Trie_init (Known STANDARD) ":") "apple").2 in
  let self' := (add (contains self "appl").2 "appl").2 in
  __contains__ self' "appl" = Ok true ∧ (contains self' "appl").1 = Ok false.
Proof. split; reflexivity. Qed.

(** ** Unsupported modes *)

(** The mode and the delimiter are fixed at construction. *)
Lemma step_type w o :
  type (step w o).1 = type w.1 ∧ delimiter (step w o).1 = delimiter w.1.
Proof.
  destruct o; simpl; try done.
  - apply add_type.
  - apply update_type.
  - by destruct (assign_cache w.1 word key value) as (_ & -> & ->).
  - by destruct (contains_frame w.1 word) as (_ & -> & -> & _).
  - by destruct (load_cache w.1 filename w.2) as (_ & -> & ->).
Qed.

Lemma run_type ops : ∀ w,
  type (run ops w).1 = type w.1 ∧ delimiter (run ops w).1 = delimiter w.1.
Proof.
  induction ops as [|o ops IH]; intros w; simpl; [done|].
  destruct (IH (step w o)) as [-> ->]. apply step_type.
Qed.

Lemma get_iterator_unsupported self v word :
  type self = Other v → _get_iterator self word = Raise NotImplementedError.
Proof. unfold _get_iterator. by intros ->. Qed.

(** A trie of an unsupported mode never gets a cache entry: its
    [__contains__] raises, and [memoize.__call__] stores nothing then. *)
Lemma step_unsupported_cache w o v :
  type w.1 = Other v → cache w.1 = ∅ → cache (step w o).1 = ∅.
Proof.
  intros Hty Hc. destruct o; simpl; try done.
  - by rewrite add_cache.
  - by rewrite update_cache.
  - by destruct (assign_cache w.1 word key value) as [-> _].
  - unfold contains, memoize_call. rewrite Hc, lookup_empty.
    unfold __contains__. by rewrite (get_iterator_unsupported _ v).
  - by destruct (load_cache w.1 filename w.2) as [-> _].
Qed.

Lemma run_unsupported_cache ops v : ∀ w,
  type w.1 = Other v → cache w.1 = ∅ → cache (run ops w).1 = ∅.
Proof.
  induction ops as [|o ops IH]; intros w Hty Hc; simpl; [done|].
  apply IH.
  - by destruct (step_type w o) as [-> _].
  - by eapply step_unsupported_cache.
Qed.

(** C8.  On a trie constructed with a mode that is not a member of
    [TYPES], whatever calls came before, [add], [contains] and [assign]
    raise [NotImplementedError] (the unsupported-mode error) and leave
    the trie as it was. *)
Theorem unsupported_mode_raises (v : pyval) (delim : string) (ops : list op)
    (fs : filesystem) (word key : string) (value : attr_value) :
  let self := (run ops (Trie_init (Other v) delim, fs)).1 in
  add self word = (Raise NotImplementedError, self) ∧
  contains self word = (Raise NotImplementedError, self) ∧
  assign self word key value = (Raise NotImplementedError, self).
Proof.
  intros self.
  assert (type self = Other v) as Hty.
  { unfold self. by destruct (run_type ops (Trie_init (Other v) delim, fs))
      as [-> _]. }
  assert (cache self = ∅) as Hc.
  { unfold self. by apply (run_unsupported_cache ops v). }
  pose proof (get_iterator_unsupported self v word Hty) as Hit.
  repeat split.
  - unfold add. by rewrite Hit.
  - unfold contains, memoize_call. rewrite Hc, lookup_empty.
    unfold __contains__. by rewrite Hit.
  - unfold assign. by rewrite Hit.
Qed.

(** ** Queries

    That a query leaves the trie as it was is a statement about
    programs that can write.  It is made for the methods as programs
    over the store, where every statement hands on a state and [add],
    [assign] and the cache of [memoize] do write. *)

Lemma getitem_frame curr_node char σ :
  (Store.getitem curr_node char σ).2 = σ.
Proof.
  destruct curr_node as [|s|r]; simpl; try done.
  by destruct (Store.entry_get _ _).
Qed.

Lemma contains_empty_frame curr_node σ :
  (Store.contains_empty curr_node σ).2 = σ.
Proof. by destruct curr_node. Qed.

Lemma get_iterator_frame word σ : (Store._get_iterator word σ).2 = σ.
Proof.
  unfold Store._get_iterator. by destruct (Store.self_type σ) as [[]|].
Qed.

Lemma contains_loop_frame iterator : ∀ curr_node σ,
  (Store.contains_loop curr_node iterator σ).2 = σ.
Proof.
  induction iterator as [|char rest IH]; intros curr_node σ; simpl.
  - unfold Store.bind.
    pose proof (contains_empty_frame curr_node σ) as H.
    destruct (Store.contains_empty curr_node σ) as [[[]|e] σ']; exact H.
  - pose proof (getitem_frame curr_node char σ) as H.
    destruct (Store.getitem curr_node char σ) as [[child|e] σ']; simpl in H;
      subst σ'; [apply IH|by destruct e].
Qed.

Lemma contains_body_frame word σ : (Store.__contains__ word σ).2 = σ.
Proof.
  unfold Store.__contains__, Store.bind, Store.get_root.
  pose proof (get_iterator_frame word σ) as H.
  destruct (Store._get_iterator word σ) as [[iterator|e] σ']; simpl in H;
    subst σ'; [apply contains_loop_frame|done].
Qed.

Lemma traverse_frame curr_node σ : (Store._traverse curr_node σ).2 = σ.
Proof. by destruct curr_node as [|[]|]. Qed.

Lemma iterate_frame iterable σ : (Store.iterate iterable σ).2 = σ.
Proof.
  destruct iterable as [[]|]; simpl; try done. apply traverse_frame.
Qed.

Lemma smash_loop_frame smash items stop :
  (∀ i σ, (smash i σ).2 = σ) →
  ∀ σ, (Store.smash_loop smash items stop σ).2 = σ.
Proof.
  intros Hsmash. induction items as [|i items IH]; intros σ; simpl; [done|].
  destruct (Store.has_iter i).
  - specialize (Hsmash i σ).
    destruct (smash i σ) as [[js [e|]] σ']; simpl in Hsmash; subst σ'; [done|].
    specialize (IH σ).
    by destruct (Store.smash_loop smash items stop σ) as [[ks e] σ''].
  - destruct i as [v|]; [|apply IH].
    specialize (IH σ).
    by destruct (Store.smash_loop smash items stop σ) as [[ks e] σ''].
Qed.

Lemma smash_frame depth : ∀ iterable σ,
  (Store._smash depth iterable σ).2 = σ.
Proof.
  induction depth as [|depth IH]; intros iterable σ; simpl; [done|].
  pose proof (iterate_frame iterable σ) as H.
  destruct (Store.iterate iterable σ) as [[items stop] σ']; simpl in H;
    subst σ'.
  by apply smash_loop_frame.
Qed.

Lemma autocomplete_loop_frame prefix : ∀ curr_node σ,
  (Store.autocomplete_loop curr_node prefix σ).2 = σ.
Proof.
  induction prefix as [|char rest IH]; intros curr_node σ; simpl; [done|].
  pose proof (getitem_frame curr_node char σ) as H.
  destruct (Store.getitem curr_node char σ) as [[child|e] σ']; simpl in H;
    subst σ'; [apply IH|by destruct e].
Qed.

Lemma autocomplete_frame prefix σ : (Store.autocomplete prefix σ).2 = σ.
Proof. apply autocomplete_loop_frame. Qed.

Lemma store_contains_frame σ word :
  Store.dicts (Store.contains word σ).2 = Store.dicts σ ∧
  Store.self_root (Store.contains word σ).2 = Store.self_root σ ∧
  Store.self_type (Store.contains word σ).2 = Store.self_type σ ∧
  Store.self_delimiter (Store.contains word σ).2 = Store.self_delimiter σ ∧
  Store.memo σ ⊆ Store.memo (Store.contains word σ).2.
Proof.
  unfold Store.contains, Store.memoize_call.
  destruct (Store.memo σ !! word) as [value|] eqn:Hmemo; [done|].
  pose proof (contains_body_frame word σ) as H.
  destruct (Store.__contains__ word σ) as [[value|e] σ']; simpl in H; subst σ';
    simpl; [|done].
  repeat split; try done. by apply insert_subseteq.
Qed.

(** C9.  Run in any state, the queries write nothing to the trie.
    After [word in trie] every dictionary object, [self.root],
    [self.type] and [self.delimiter] are what they were, and the cache
    holds its old entries, extended by at most the answer just computed.
    The body of [__contains__], a call of [autocomplete], and collecting
    the generator it returns under any recursion limit leave the whole
    state as it was. *)
Theorem queries_preserve_graph (σ : Store.state) (word : string)
    (prefix : pyiter) (depth : nat) :
  let σ1 := (Store.contains word σ).2 in
  Store.dicts σ1 = Store.dicts σ ∧
  Store.self_root σ1 = Store.self_root σ ∧
  Store.self_type σ1 = Store.self_type σ ∧
  Store.self_delimiter σ1 = Store.self_delimiter σ ∧
  Store.memo σ ⊆ Store.memo σ1 ∧
  (Store.__contains__ word σ).2 = σ ∧
  (Store.autocomplete prefix σ).2 = σ ∧
  (Store.autocomplete_list depth prefix σ).2 = σ.
Proof.
  destruct (store_contains_frame σ word) as (Hds & Hr & Ht & Hd & Hm).
  do 5 (split; [done|]).
  split; [apply contains_body_frame|]. split; [apply autocomplete_frame|].
  unfold Store.autocomplete_list.
  pose proof (autocomplete_frame prefix σ) as H.
  destruct (Store.autocomplete prefix σ) as [[[|g]|e] σ']; simpl in H;
    subst σ'; [done| |done].
  apply smash_frame.
Qed.

(** The same does not hold of a method that writes: [add] on a new trie
    leaves three dictionary objects where there was one, and [assign]
    changes the dictionary at the end of the path. *)
Example add_changes_store :
  let σ := (Store.add "ab" (Store.Trie_init (Known STANDARD) ":")).2 in
  Store.dicts σ
  = {[ 1%positive := [("a", Store.ORef 2%positive)];
       2%positive := [("b", Store.ORef 3%positive)];
       3%positive := [("", Store.OStr "ab")] ]} ∧
  Store.dicts (Store.assign "ab" "count" (AStr "3") σ).2
  = {[ 1%positive := [("a", Store.ORef 2%positive)];
       2%positive := [("b", Store.ORef 3%positive)];
       3%positive := [("", Store.OStr "ab"); ("count", Store.OStr "3")] ]}.
Proof. vm_compute. split; reflexivity. Qed.

(** *** The programs compute what the functions on graphs compute *)

Lemma holds_entry_get ds es d key :
  Forall2 (λ e kv, e.1 = kv.1 ∧ holds ds e.2 kv.2) es d →
  match dict_get d key with
  | Some v => ∃ o, Store.entry_get es key = Some o ∧ holds ds o v
  | None => Store.entry_get es key = None
  end.
Proof.
  induction 1 as [|[k o] [k' v] es d [Hk Hv] _ IH]; simpl in *; [done|].
  subst k'. destruct (String.eqb k key); [eauto|done].
Qed.

Lemma holds_getitem σ o v char :
  holds (Store.dicts σ) o v →
  match getitem v char with
  | Ok child =>
      ∃ o', Store.getitem o char σ = (Ok o', σ) ∧ holds (Store.dicts σ) o' child
  | Raise e => Store.getitem o char σ = (Raise e, σ)
  end.
Proof.
  destruct 1 as [|s|r es d Hr Hes]; simpl; try done.
  unfold Store.entries. rewrite Hr. simpl.
  pose proof (holds_entry_get _ _ _ char Hes) as H.
  destruct (dict_get d char) as [child|].
  - destruct H as (o' & -> & Ho'). eauto.
  - by rewrite H.
Qed.

Lemma holds_contains_empty σ o v :
  holds (Store.dicts σ) o v →
  Store.contains_empty o σ = (contains_empty v, σ).
Proof.
  destruct 1 as [|s|r es d Hr Hes]; simpl; try done.
  unfold Store.entries. rewrite Hr. simpl.
  pose proof (holds_entry_get _ _ _ "" Hes) as H.
  destruct (dict_get d "") as [child|].
  - by destruct H as (o' & -> & _).
  - by rewrite H.
Qed.

Lemma contains_loop_member_at σ iterator : ∀ o v,
  holds (Store.dicts σ) o v →
  Store.contains_loop o iterator σ = (member_at v iterator, σ).
Proof.
  induction iterator as [|char rest IH]; intros o v Hv.
  - simpl. unfold Store.bind, member_at. simpl.
    rewrite (holds_contains_empty σ o v Hv).
    by destruct (contains_empty v) as [[]|].
  - cbn [Store.contains_loop]. pose proof (holds_getitem σ o v char Hv) as H.
    unfold member_at. simpl.
    destruct (getitem v char) as [child|e]; simpl.
    + destruct H as (o' & -> & Ho'). apply (IH o' child Ho').
    + rewrite H. by destruct e.
Qed.

Lemma models_get_iterator σ self word :
  models σ self →
  Store._get_iterator word σ = (_get_iterator self word, σ).
Proof.
  intros (_ & Ht & Hd & _). unfold Store._get_iterator, _get_iterator.
  rewrite Ht, Hd. by destruct (type self) as [[]|].
Qed.

Lemma models_contains_body σ self word :
  models σ self →
  Store.__contains__ word σ = (__contains__ self word, σ).
Proof.
  intros Hm. unfold Store.__contains__, Store.bind, Store.get_root.
  rewrite (models_get_iterator σ self word Hm). unfold __contains__.
  destruct (_get_iterator self word) as [iterator|e]; simpl; [|done].
  destruct Hm as (Hr & _). apply (contains_loop_member_at σ iterator _ _ Hr).
Qed.

(** The decorated [__contains__] gives the same answer in both
    readings, and the states after it correspond again. *)
Lemma models_contains σ self word :
  models σ self →
  (Store.contains word σ).1 = (contains self word).1 ∧
  models (Store.contains word σ).2 (contains self word).2.
Proof.
  intros Hm. unfold Store.contains, Store.memoize_call, contains, memoize_call.
  rewrite (models_contains_body σ self word Hm).
  destruct Hm as (Hr & Ht & Hd & Hc). rewrite Hc.
  destruct (cache self !! word) as [value|]; [done|].
  destruct (__contains__ self word) as [value|e]; simpl; [|done].
  split; [done|]. repeat split; try done.
Qed.

Lemma item_holds_has_iter ds i i' :
  item_holds ds i i' → Store.has_iter i = has_iter i'.
Proof.
  destruct 1 as [o v Hv|o v Hv]; [by destruct Hv|].
  by destruct v as [|[]|].
Qed.

Lemma item_holds_iterate σ i i' :
  item_holds (Store.dicts σ) i i' →
  ∃ items,
    Store.iterate i σ = ((items, (iterate i').2), σ) ∧
    Forall2 (item_holds (Store.dicts σ)) items (iterate i').1.
Proof.
  destruct 1 as [o v Hv|o v Hv].
  - destruct Hv as [|s|r es d Hr Hes]; simpl.
    + by exists [].
    + eexists. split; [done|].
      induction (chars s) as [|c cs IH]; simpl; [constructor|].
      constructor; [|done]. constructor. constructor.
    + unfold Store.entries. rewrite Hr. simpl. eexists. split; [done|].
      clear Hr.
      induction Hes as [|[k o] [k' v] es d [Hk _] _ IH]; simpl in *;
        [constructor|].
      constructor; [|done]. subst k'. constructor. constructor.
  - destruct Hv as [|s|r es d Hr Hes]; simpl.
    + by exists [].
    + destruct s; by exists [].
    + unfold Store.entries. rewrite Hr. simpl. eexists. split; [done|].
      clear Hr.
      induction Hes as [|[k o] [k' v] es d [Hk Hv] _ IH]; simpl in *;
        [constructor|].
      constructor; [|done].
      subst k'. destruct (String.eqb k ""); by constructor.
Qed.

Lemma smash_loop_holds σ smash smash' items items' stop :
  (∀ i i', item_holds (Store.dicts σ) i i' →
     ∃ js, smash i σ = ((js, (smash' i').2), σ) ∧
           Forall2 (holds (Store.dicts σ)) js (smash' i').1) →
  Forall2 (item_holds (Store.dicts σ)) items items' →
  ∃ js, Store.smash_loop smash items stop σ
        = ((js, (smash_loop smash' items' stop).2), σ) ∧
        Forall2 (holds (Store.dicts σ)) js (smash_loop smash' items' stop).1.
Proof.
  intros Hsmash. induction 1 as [|i i' items items' Hi _ IH]; simpl.
  - by exists [].
  - rewrite (item_holds_has_iter _ _ _ Hi).
    destruct IH as (ks & Hks & Hall).
    destruct (has_iter i') eqn:Hiter.
    + destruct (Hsmash i i' Hi) as (js & Hjs & Hjall). rewrite Hjs.
      destruct (smash' i') as [js' [e|]]; simpl in *; [eauto|].
      rewrite Hks.
      destruct (smash_loop smash' items' stop) as [ks' e']; simpl in *.
      exists (js ++ ks). split; [done|]. by apply Forall2_app.
    + destruct Hi as [o v Hv|o v Hv].
      * rewrite Hks.
        destruct (smash_loop smash' items' stop) as [ks' e']; simpl in *.
        exists (o :: ks). split; [done|]. by constructor.
      * by destruct v as [|[]|].
Qed.

Lemma smash_holds σ depth : ∀ i i',
  item_holds (Store.dicts σ) i i' →
  ∃ js, Store._smash depth i σ = ((js, (_smash depth i').2), σ) ∧
        Forall2 (holds (Store.dicts σ)) js (_smash depth i').1.
Proof.
  induction depth as [|depth IH]; intros i i' Hi; simpl.
  - by exists [].
  - destruct (item_holds_iterate σ i i' Hi) as (items & -> & Hitems).
    destruct (iterate i') as [items' stop]. simpl in *.
    by apply smash_loop_holds.
Qed.

Lemma autocomplete_loop_holds σ prefix : ∀ o v,
  holds (Store.dicts σ) o v →
  match descend v prefix with
  | Ok node =>
      ∃ o', Store.autocomplete_loop o prefix σ
            = (Ok (Store.Smash (Store.ITraverse o')), σ) ∧
            holds (Store.dicts σ) o' node
  | Raise KeyError =>
      Store.autocomplete_loop o prefix σ = (Ok Store.EmptyList, σ)
  | Raise e => Store.autocomplete_loop o prefix σ = (Raise e, σ)
  end.
Proof.
  induction prefix as [|char rest IH]; intros o v Hv.
  - simpl. eauto.
  - cbn [Store.autocomplete_loop descend].
    pose proof (holds_getitem σ o v char Hv) as H.
    destruct (getitem v char) as [child|e]; simpl.
    + destruct H as (o' & -> & Ho'). apply (IH o' child Ho').
    + rewrite H. by destruct e.
Qed.

(** Collecting the completions delivers the same objects and ends the
    same way in both readings. *)
Lemma models_autocomplete_list σ self depth prefix :
  models σ self →
  ∃ js, Store.autocomplete_list depth prefix σ
        = ((js, (autocomplete_list depth self prefix).2), σ) ∧
        Forall2 (holds (Store.dicts σ)) js
          (autocomplete_list depth self prefix).1.
Proof.
  intros (Hr & _). unfold Store.autocomplete_list, Store.autocomplete.
  unfold Store.bind, Store.get_root, autocomplete_list, autocomplete.
  pose proof (autocomplete_loop_holds σ (iter_prefix prefix) _ _ Hr) as H.
  destruct (descend (root self) (iter_prefix prefix)) as [node|e].
  - destruct H as (o' & -> & Ho'). simpl.
    apply smash_holds. by constructor.
  - destruct e; rewrite H; by exists [].
Qed.

(** A new instance is the new trie. *)
Lemma models_init ty delim :
  models (Store.Trie_init ty delim) (Trie_init ty delim).
Proof.
  repeat split. apply (holds_Dict _ 1%positive [] []); [done|constructor].
Qed.

(** *** Writing in place

    On a store whose dictionary objects form a tree, [add] and [assign]
    write in place what the functions on graphs rebuild along the
    path. *)

Lemma owns_frame ds :
  (∀ o v fp, owns ds o v fp →
     ∀ ds', (∀ r, r ∈ fp → ds' !! r = ds !! r) → owns ds' o v fp) ∧
  (∀ es d fp, owns_entries ds es d fp →
     ∀ ds', (∀ r, r ∈ fp → ds' !! r = ds !! r) → owns_entries ds' es d fp).
Proof.
  split.
  - intros o v fp H.
    induction H using owns_mut with
      (P0 := λ es d fp, ∀ ds', (∀ r, r ∈ fp → ds' !! r = ds !! r) →
                             owns_entries ds' es d fp); intros ds' Hsame.
    + constructor.
    + constructor.
    + econstructor; [rewrite Hsame; [eassumption|set_solver]| |done].
      apply IHowns; intros; apply Hsame; set_solver.
    + constructor.
    + constructor; [apply IHowns|apply IHowns0|done];
        intros; apply Hsame; set_solver.
  - intros es d fp H.
    induction H using owns_entries_mut with
      (P := λ o v fp, ∀ ds', (∀ r, r ∈ fp → ds' !! r = ds !! r) →
                             owns ds' o v fp); intros ds' Hsame.
    + constructor.
    + constructor.
    + econstructor; [rewrite Hsame; [eassumption|set_solver]| |done].
      apply IHowns_entries; intros; apply Hsame; set_solver.
    + constructor.
    + constructor; [apply IHowns_entries|apply IHowns_entries0|done];
        intros; apply Hsame; set_solver.
Qed.

Lemma owns_dom ds :
  (∀ o v fp, owns ds o v fp → fp ⊆ dom ds) ∧
  (∀ es d fp, owns_entries ds es d fp → fp ⊆ dom ds).
Proof.
  split.
  - intros o v fp H.
    induction H using owns_mut with (P0 := λ es d fp, fp ⊆ dom ds);
      try set_solver.
    apply elem_of_dom_2 in H. set_solver.
  - intros es d fp H.
    induction H using owns_entries_mut with (P := λ o v fp, fp ⊆ dom ds);
      try set_solver.
    apply elem_of_dom_2 in H. set_solver.
Qed.

Lemma owns_holds ds :
  (∀ o v fp, owns ds o v fp → holds ds o v) ∧
  (∀ es d fp, owns_entries ds es d fp →
     Forall2 (λ e kv, e.1 = kv.1 ∧ holds ds e.2 kv.2) es d).
Proof.
  split.
  - intros o v fp H.
    induction H using owns_mut with
      (P0 := λ es d fp, Forall2 (λ e kv, e.1 = kv.1 ∧ holds ds e.2 kv.2) es d);
      try by constructor.
    by econstructor.
  - intros es d fp H.
    induction H using owns_entries_mut with (P := λ o v fp, holds ds o v);
      try by constructor.
    by econstructor.
Qed.

Lemma entry_get_set_eq es key value :
  Store.entry_get (Store.entry_set es key value) key = Some value.
Proof.
  induction es as [|[k v] es IH]; simpl.
  - by rewrite String.eqb_refl.
  - destruct (String.eqb k key) eqn:Hk; simpl; by rewrite Hk.
Qed.

Lemma entry_set_same es key value :
  Store.entry_get es key = Some value → Store.entry_set es key value = es.
Proof.
  induction es as [|[k v] es IH]; simpl; [done|].
  destruct (String.eqb k key); [by intros [= ->]|].
  intros H. by rewrite IH.
Qed.

(** Replacing what one entry of a dictionary holds: the other entries
    keep what they own. *)
Lemma owns_entries_step ds es d fp key :
  owns_entries ds es d fp →
  ∃ fpc, fpc ⊆ fp ∧
    match dict_get d key with
    | Some v => ∃ o, Store.entry_get es key = Some o ∧ owns ds o v fpc
    | None => Store.entry_get es key = None ∧ fpc = ∅
    end ∧
    ∀ ds' o' v' fp1,
      (∀ r, r ∈ fp → r ∉ fpc → ds' !! r = ds !! r) →
      owns ds' o' v' fp1 →
      (∀ r, r ∈ fp1 → r ∈ fpc ∨ r ∉ fp) →
      ∃ fp', owns_entries ds' (Store.entry_set es key o') (dict_set d key v') fp' ∧
             ∀ r, r ∈ fp' → (r ∈ fp ∧ r ∉ fpc) ∨ r ∈ fp1.
Proof.
  induction 1 as [|k o v es d fpa fpb Ho Hes IH Hdisj].
  - exists ∅. split; [done|]. split; [done|].
    intros ds' o' v' fp1 _ Ho' _. exists (fp1 ∪ ∅). split; [|set_solver].
    constructor; [done|constructor|set_solver].
  - simpl. destruct (String.eqb k key) eqn:Hk.
    + exists fpa. split; [set_solver|]. split; [eauto|].
      intros ds' o' v' fp1 Hsame Ho' Hnew. exists (fp1 ∪ fpb).
      split; [|set_solver]. constructor; [done| |set_solver].
      apply (proj2 (owns_frame ds) _ _ _ Hes). intros r Hr.
      apply Hsame; set_solver.
    + destruct IH as (fpc & Hsub & Hget & Hset). exists fpc.
      split; [set_solver|]. split; [done|].
      intros ds' o' v' fp1 Hsame Ho' Hnew.
      destruct (Hset ds' o' v' fp1) as (fp' & Hes' & Hfp'); [| done | |].
      * intros r Hr Hrc. apply Hsame; set_solver.
      * intros r Hr. destruct (Hnew r Hr); set_solver.
      * exists (fpa ∪ fp'). split.
        -- constructor; [|done|].
           ++ apply (proj1 (owns_frame ds) _ _ _ Ho). intros r Hr.
              apply Hsame; set_solver.
           ++ intros r Hra Hr'. destruct (Hfp' r Hr') as [[? ?]|Hr1];
                [set_solver|]. destruct (Hnew r Hr1); set_solver.
        -- intros r [Hr|Hr]%elem_of_union; [set_solver|].
           destruct (Hfp' r Hr) as [[? ?]|?]; set_solver.
Qed.

(** Below a new, empty dictionary [add] creates every node of the path
    and raises nothing. *)
Lemma add_from_empty_Ok rest word : ∃ r, add_from (VDict []) rest word = Ok r.
Proof.
  induction rest as [|c rest [r IH]]; simpl; [eauto|].
  rewrite IH. simpl. eauto.
Qed.

Lemma add_loop_owns iterator word : ∀ o v fp σ,
  owns (Store.dicts σ) o v fp →
  match add_from v iterator word with
  | Ok v' =>
      ∃ σ', Store.add_loop o iterator word σ = (Ok (), σ') ∧
            rewrites σ σ' o v' fp
  | Raise e => Store.add_loop o iterator word σ = (Raise e, σ)
  end.
Proof.
  induction iterator as [|char rest IH]; intros o v fp σ Hv.
  - simpl. destruct Hv as [|s|r es d fp Hr Hes Hfresh]; simpl; try done.
    unfold Store.entries. rewrite Hr. simpl. eexists. split; [done|].
    split; [done|].
    destruct (owns_entries_step _ _ _ _ "" Hes) as (fpc & Hsub & _ & Hset).
    destruct (Hset (<[r := Store.entry_set es "" (Store.OStr word)]> (Store.dicts σ))
                (Store.OStr word) (VStr word) ∅) as (fp' & Hes' & Hfp').
    { intros r' Hr' _. apply lookup_insert_ne. set_solver. }
    { constructor. }
    { set_solver. }
    exists ({[r]} ∪ fp'). simpl. split; [|split].
    + econstructor; [apply lookup_insert_eq|done|].
      intros Hin. destruct (Hfp' r Hin); set_solver.
    + intros r' [Hr'|Hr']%elem_of_union; [set_solver|].
      destruct (Hfp' r' Hr'); set_solver.
    + intros r' _ Hr'. apply lookup_insert_ne. set_solver.
  - cbn [add_from Store.add_loop].
    destruct Hv as [|s|r es d fp Hr Hes Hfresh]; simpl; try done.
    unfold Store.entries. rewrite Hr. simpl.
    destruct (owns_entries_step _ _ _ _ char Hes) as (fpc & Hsub & Hget & Hset).
    pose proof (proj2 (owns_dom _) _ _ _ Hes) as Hdom.
    assert (r ∈ dom (Store.dicts σ)) as Hrdom by by eapply elem_of_dom_2.
    destruct (dict_get d char) as [child|].
    + destruct Hget as (oc & Hgetc & Hoc). rewrite Hgetc.
      specialize (IH oc child fpc σ Hoc).
      destruct (add_from child rest word) as [child'|e]; simpl; [|done].
      destruct IH as (σ' & -> & Hself & fpc' & Hoc' & Hnew & Hsame).
      exists σ'. split; [done|]. split; [done|].
      destruct (Hset (Store.dicts σ') oc child' fpc') as (fp' & Hes' & Hfp').
      { intros r' Hr' Hrc. apply Hsame; [set_solver|done]. }
      { done. }
      { intros r' Hr'. destruct (Hnew r' Hr'); set_solver. }
      rewrite entry_set_same in Hes' by done.
      exists ({[r]} ∪ fp'). split; [|split].
      * econstructor; [|done|].
        -- rewrite Hsame; [done|done|set_solver].
        -- intros Hin. destruct (Hfp' r Hin) as [[? ?]|Hin']; [set_solver|].
           destruct (Hnew r Hin'); set_solver.
      * intros r' [Hr'|Hr']%elem_of_union; [set_solver|].
        destruct (Hfp' r' Hr') as [[? ?]|Hin']; [set_solver|].
        destruct (Hnew r' Hin'); set_solver.
      * intros r' Hr' Hnot. apply Hsame; set_solver.
    + destruct Hget as [-> ->].
      destruct (add_from_empty_Ok rest word) as [child' Hchild].
      rewrite Hchild. simpl.
      unfold Store.bind, Store.new_dict, Store.setitem. simpl.
      set (rn := fresh (dom (Store.dicts σ))).
      assert (rn ∉ dom (Store.dicts σ)) as Hrn by apply is_fresh.
      assert (rn ≠ r) as Hne by (intros ->; done).
      unfold Store.entries. simpl.
      rewrite (lookup_insert_ne (Store.dicts σ) rn r) by done.
      rewrite Hr. simpl.
      rewrite lookup_insert_eq. simpl. rewrite entry_get_set_eq.
      set (σ2 := Store.set_dicts _ _).
      assert (owns (Store.dicts σ2) (Store.ORef rn) (VDict []) ({[rn]} ∪ ∅))
        as Hown.
      { econstructor; [|constructor|set_solver]. subst σ2. simpl.
        rewrite lookup_insert_ne by done. apply lookup_insert_eq. }
      specialize (IH _ _ _ σ2 Hown). rewrite Hchild in IH.
      destruct IH as (σ3 & -> & Hself & fpn & Hon & Hnew & Hsame).
      exists σ3. split; [done|]. split; [done|].
      assert (dom (Store.dicts σ2) = {[r]} ∪ ({[rn]} ∪ dom (Store.dicts σ)))
        as Hdom2.
      { subst σ2. simpl. by rewrite !dom_insert_L. }
      destruct (Hset (Store.dicts σ3) (Store.ORef rn) child' fpn)
        as (fp' & Hes' & Hfp').
      { intros r' Hr' _.
        rewrite Hsame; [|rewrite Hdom2; set_solver|set_solver].
        subst σ2. simpl. rewrite !lookup_insert_ne; [done|set_solver|set_solver]. }
      { done. }
      { intros r' Hr'. right. destruct (Hnew r' Hr') as [Hin|Hout].
        - set_solver.
        - rewrite Hdom2 in Hout. set_solver. }
      exists ({[r]} ∪ fp'). split; [|split].
      * econstructor; [|done|].
        -- rewrite Hsame; [|rewrite Hdom2; set_solver|set_solver].
           subst σ2. simpl. apply lookup_insert_eq.
        -- intros Hin. destruct (Hfp' r Hin) as [[? ?]|Hin']; [set_solver|].
           destruct (Hnew r Hin') as [?|Hout]; [set_solver|].
           rewrite Hdom2 in Hout. set_solver.
      * intros r' [Hr'|Hr']%elem_of_union; [set_solver|].
        destruct (Hfp' r' Hr') as [[? ?]|Hin']; [set_solver|].
        destruct (Hnew r' Hin') as [?|Hout]; [set_solver|].
        rewrite Hdom2 in Hout. set_solver.
      * intros r' Hr' Hnot.
        rewrite Hsame; [|rewrite Hdom2; set_solver|set_solver].
        subst σ2. simpl. rewrite !lookup_insert_ne; [done|set_solver|set_solver].
Qed.

Lemma assign_loop_owns iterator key ov vv : ∀ o v fp σ,
  (∀ ds, owns ds ov vv ∅) →
  owns (Store.dicts σ) o v fp →
  match assign_from v iterator key vv with
  | Ok v' =>
      ∃ σ', Store.assign_loop o iterator key ov σ = (Ok (), σ') ∧
            rewrites σ σ' o v' fp
  | Raise KeyError => Store.assign_loop o iterator key ov σ = (Ok (), σ)
  | Raise e => Store.assign_loop o iterator key ov σ = (Raise e, σ)
  end.
Proof.
  intros o v fp σ Hval. revert o v fp σ.
  induction iterator as [|char rest IH]; intros o v fp σ Hv.
  - simpl. destruct Hv as [|s|r es d fp Hr Hes Hfresh]; simpl; try done.
    unfold Store.entries. rewrite Hr. simpl. eexists. split; [done|].
    split; [done|].
    destruct (owns_entries_step _ _ _ _ key Hes) as (fpc & Hsub & _ & Hset).
    destruct (Hset (<[r := Store.entry_set es key ov]> (Store.dicts σ))
                ov vv ∅) as (fp' & Hes' & Hfp').
    { intros r' Hr' _. apply lookup_insert_ne. set_solver. }
    { apply Hval. }
    { set_solver. }
    exists ({[r]} ∪ fp'). simpl. split; [|split].
    + econstructor; [apply lookup_insert_eq|done|].
      intros Hin. destruct (Hfp' r Hin); set_solver.
    + intros r' [Hr'|Hr']%elem_of_union; [set_solver|].
      destruct (Hfp' r' Hr'); set_solver.
    + intros r' _ Hr'. apply lookup_insert_ne. set_solver.
  - cbn [assign_from Store.assign_loop].
    destruct Hv as [|s|r es d fp Hr Hes Hfresh]; simpl; try done.
    unfold Store.entries. rewrite Hr. simpl.
    destruct (owns_entries_step _ _ _ _ char Hes) as (fpc & Hsub & Hget & Hset).
    pose proof (proj2 (owns_dom _) _ _ _ Hes) as Hdom.
    assert (r ∈ dom (Store.dicts σ)) as Hrdom by by eapply elem_of_dom_2.
    destruct (dict_get d char) as [child|]; simpl.
    + destruct Hget as (oc & Hgetc & Hoc). rewrite Hgetc.
      specialize (IH oc child fpc σ Hoc).
      destruct (assign_from child rest key vv) as [child'|e]; simpl.
      * destruct IH as (σ' & -> & Hself & fpc' & Hoc' & Hnew & Hsame).
        exists σ'. split; [done|]. split; [done|].
        destruct (Hset (Store.dicts σ') oc child' fpc') as (fp' & Hes' & Hfp').
        { intros r' Hr' Hrc. apply Hsame; [set_solver|done]. }
        { done. }
        { intros r' Hr'. destruct (Hnew r' Hr'); set_solver. }
        rewrite entry_set_same in Hes' by done.
        exists ({[r]} ∪ fp'). split; [|split].
        -- econstructor; [|done|].
           ++ rewrite Hsame; [done|done|set_solver].
           ++ intros Hin. destruct (Hfp' r Hin) as [[? ?]|Hin']; [set_solver|].
              destruct (Hnew r Hin'); set_solver.
        -- intros r' [Hr'|Hr']%elem_of_union; [set_solver|].
           destruct (Hfp' r' Hr') as [[? ?]|Hin']; [set_solver|].
           destruct (Hnew r' Hin'); set_solver.
        -- intros r' Hr' Hnot. apply Hsame; set_solver.
      * by destruct e.
    + destruct Hget as [-> _]. done.
Qed.

Lemma tree_models_models σ self : tree_models σ self → models σ self.
Proof.
  intros ([fp Hfp] & Ht & Hd & Hc). split; [|done].
  by apply (proj1 (owns_holds _) _ _ fp).
Qed.

Lemma tree_models_init ty delim :
  tree_models (Store.Trie_init ty delim) (Trie_init ty delim).
Proof.
  split; [|done]. exists ({[1%positive]} ∪ ∅).
  econstructor; [done|constructor|set_solver].
Qed.

(** [add] does to the store what it does to the graph. *)
Lemma tree_models_add σ self word :
  tree_models σ self →
  (Store.add word σ).1 = (add self word).1 ∧
  tree_models (Store.add word σ).2 (add self word).2.
Proof.
  intros Hm. pose proof (tree_models_models _ _ Hm) as Hm'.
  unfold Store.add, Store.bind, Store.get_root, add.
  rewrite (models_get_iterator σ self word Hm').
  destruct (_get_iterator self word) as [iterator|e]; simpl; [|done].
  destruct Hm as ([fp Hfp] & Ht & Hd & Hc).
  pose proof (add_loop_owns iterator word _ _ _ σ Hfp) as H.
  destruct (add_from (root self) iterator word) as [r|e].
  - destruct H as (σ' & -> & (Hr' & Ht' & Hd' & Hc') & fp' & Hown & _).
    simpl. split; [done|]. split; [|by rewrite Ht', Hd', Hc'].
    exists fp'. by rewrite Hr'.
  - rewrite H. simpl. split; [done|]. split; eauto.
Qed.

(** [assign] does to the store what it does to the graph. *)
Lemma tree_models_assign σ self word key value :
  tree_models σ self →
  (Store.assign word key value σ).1 = (assign self word key value).1 ∧
  tree_models (Store.assign word key value σ).2 (assign self word key value).2.
Proof.
  intros Hm. pose proof (tree_models_models _ _ Hm) as Hm'.
  unfold Store.assign, Store.bind, Store.get_root, assign.
  rewrite (models_get_iterator σ self word Hm').
  destruct (_get_iterator self word) as [iterator|e]; simpl; [|done].
  destruct Hm as ([fp Hfp] & Ht & Hd & Hc).
  pose proof (assign_loop_owns iterator key
                match value with ANone => Store.ONone | AStr s => Store.OStr s end
                (attr_val value) (Store.self_root σ) (root self) fp σ) as H.
  specialize (H ltac:(intros ds; destruct value; constructor) Hfp).
  destruct (assign_from (root self) iterator key (attr_val value)) as [r|e].
  - destruct H as (σ' & -> & (Hr' & Ht' & Hd' & Hc') & fp' & Hown & _).
    simpl. split; [done|]. split; [|by rewrite Ht', Hd', Hc'].
    exists fp'. by rewrite Hr'.
  - destruct e; rewrite H; simpl; (split; [done|]); split; eauto.
Qed.

(** [contains] gives the same answer and caches it alike. *)
Lemma tree_models_contains σ self word :
  tree_models σ self →
  (Store.contains word σ).1 = (contains self word).1 ∧
  tree_models (Store.contains word σ).2 (contains self word).2.
Proof.
  intros Hm. pose proof (tree_models_models _ _ Hm) as Hm'.
  destruct (models_contains σ self word Hm') as (Hres & _ & Ht & Hd & Hc).
  split; [done|]. split; [|done].
  destruct Hm as ([fp Hfp] & _). exists fp.
  destruct (store_contains_frame σ word) as (-> & -> & _).
  by destruct (contains_frame self word) as [-> _].
Qed.

Lemma tree_models_update words : ∀ σ self,
  tree_models σ self →
  (Store.update words σ).1 = (update self words).1 ∧
  tree_models (Store.update words σ).2 (update self words).2.
Proof.
  induction words as [|word words IH]; intros σ self Hm; simpl; [done|].
  unfold Store.bind.
  destruct (tree_models_add σ self word Hm) as [Hres Hm1].
  destruct (Store.add word σ) as [r σ1], (add self word) as [r' self1].
  simpl in *. subst r'. destruct r as [[]|e]; [by apply IH|done].
Qed.

Lemma tree_models_step σ w o :
  builds o = true →
  tree_models σ w.1 →
  ∃ σ', Store.step σ o = Some σ' ∧ tree_models σ' (step w o).1.
Proof.
  intros Ho Hm. destruct o; simpl; try done; eexists; (split; [done|]).
  - apply tree_models_add, Hm.
  - apply tree_models_update, Hm.
  - apply tree_models_assign, Hm.
  - apply tree_models_contains, Hm.
  - by rewrite autocomplete_frame.
  - done.
Qed.

(** The two readings stay in step over any calls that work in memory. *)
Lemma tree_models_run ops : ∀ σ w,
  forallb builds ops = true →
  tree_models σ w.1 →
  ∃ σ', Store.run ops σ = Some σ' ∧ tree_models σ' (run ops w).1.
Proof.
  induction ops as [|o ops IH]; intros σ w Hops Hm; simpl; [eauto|].
  simpl in Hops. apply andb_prop in Hops as [Ho Hops].
  destruct (tree_models_step σ w o Ho Hm) as (σ1 & -> & Hm1). simpl.
  by apply IH.
Qed.

(** From a new trie on, after any calls that work in memory, the store
    is the graph, as a tree, and every method returns or raises in the
    one reading what it returns or raises in the other; what collecting
    the completions delivers is the same, object by object. *)
Lemma readings_agree (ty : trie_type) (delim : string) (ops : list op)
    (fs : filesystem) (word : string) (prefix : pyiter) (depth : nat) :
  forallb builds ops = true →
  let self := (run ops (Trie_init ty delim, fs)).1 in
  ∃ σ, Store.run ops (Store.Trie_init ty delim) = Some σ ∧
    tree_models σ self ∧
    (Store.add word σ).1 = (add self word).1 ∧
    (∀ words, (Store.update words σ).1 = (update self words).1) ∧
    (∀ key value,
       (Store.assign word key value σ).1 = (assign self word key value).1) ∧
    (Store.contains word σ).1 = (contains self word).1 ∧
    (Store.autocomplete_list depth prefix σ).1.2
    = (autocomplete_list depth self prefix).2 ∧
    Forall2 (holds (Store.dicts σ))
      (Store.autocomplete_list depth prefix σ).1.1
      (autocomplete_list depth self prefix).1.
Proof.
  intros Hops self.
  destruct (tree_models_run ops (Store.Trie_init ty delim)
              (Trie_init ty delim, fs) Hops (tree_models_init ty delim))
    as (σ & Hrun & Hm).
  exists σ. split; [done|].
  split; [done|]. split; [apply tree_models_add, Hm|].
  split; [intros; apply tree_models_update, Hm|].
  split; [intros; apply tree_models_assign, Hm|].
  split; [apply tree_models_contains, Hm|].
  destruct (models_autocomplete_list σ self depth prefix
              (tree_models_models _ _ Hm)) as (js & -> & Hjs).
  done.
Qed.

Example readings_agree_example :
  let ops := [OpUpdate ["apple"; "apricot"]; OpContains "appl";
              OpAssign "apple" "count" (AStr "3"); OpAdd "appl"] in
  let self := (run ops (Trie_init (Known STANDARD) ":", mkFs ∅ ∅)).1 in
  ∃ σ, Store.run ops (Store.Trie_init (Known STANDARD) ":") = Some σ ∧
    (Store.contains "appl" σ).1 = Ok false ∧
    (contains self "appl").1 = Ok false ∧
    (Store.contains "apple" σ).1 = Ok true ∧
    (contains self "apple").1 = Ok true.
Proof. eexists. split; [reflexivity|]. vm_compute. repeat split. Qed.

(** ** Completion *)

Lemma traverse_plain_stops node : plain_stops (_traverse node).
Proof.
  induction node as [|s|d IH] using pyval_ind; simpl.
  - apply plain_gen; [apply List.Forall_nil|by right].
  - destruct s; (apply plain_gen; [apply List.Forall_nil|auto]).
  - apply plain_gen; [|by left].
    induction IH as [|[k v] d Hv _ IHd]; simpl; [apply List.Forall_nil|].
    apply List.Forall_cons; [|done].
    destruct (String.eqb k ""); [apply plain_val|done].
Qed.

Lemma iterate_plain_stops i :
  plain_stops i →
  Forall plain_stops (iterate i).1 ∧
  ((iterate i).2 = None ∨ (iterate i).2 = Some TypeError).
Proof.
  destruct 1 as [[|s|d]|items stop Hitems Hstop]; simpl.
  - split; [apply List.Forall_nil|by right].
  - split; [|by left]. apply Forall_fmap, Forall_true. constructor.
  - split; [|by left]. apply Forall_fmap, Forall_true. constructor.
  - done.
Qed.

Lemma smash_loop_raises smash items stop :
  (∀ i, plain_stops i → smash_raises (smash i).2) →
  Forall plain_stops items →
  stop = None ∨ stop = Some TypeError →
  smash_raises (smash_loop smash items stop).2.
Proof.
  intros Hsmash Hitems Hstop.
  induction Hitems as [|i items Hi _ IH]; simpl.
  - destruct Hstop as [->| ->]; [by left|by right; left].
  - destruct (has_iter i).
    + specialize (Hsmash i Hi). destruct (smash i) as [js [e|]]; [done|].
      by destruct (smash_loop smash items stop).
    + destruct i; by destruct (smash_loop smash items stop).
Qed.

Lemma smash_raises_only depth : ∀ i,
  plain_stops i → smash_raises (_smash depth i).2.
Proof.
  induction depth as [|depth IH]; intros i Hi; simpl.
  - by right; right.
  - destruct (iterate_plain_stops i Hi) as [Hitems Hstop].
    destruct (iterate i) as [items stop]. by apply smash_loop_raises.
Qed.

(** C10.  [autocomplete] does not consult the mode or the delimiter: it
    follows the elements of [prefix] as they are, one per character for
    a string, and neither the call nor collecting its result raises
    [NotImplementedError], whatever the mode of the trie. *)
Theorem autocomplete_ignores_mode (self : Trie) (prefix : pyiter)
    (ty : trie_type) (delim : string) (depth : nat) :
  autocomplete (mkTrie (root self) ty delim (cache self)) prefix
  = autocomplete self prefix ∧
  autocomplete self prefix
  = match descend (root self) (iter_prefix prefix) with
    | Ok curr_node => Ok (Smash (_traverse curr_node))
    | Raise KeyError => Ok EmptyList
    | Raise e => Raise e
    end ∧
  (∀ s, iter_prefix (PStr s) = chars s ∧
        length (chars s) = String.length s ∧
        Forall (λ char, String.length char = 1) (chars s)) ∧
  autocomplete self prefix ≠ Raise NotImplementedError ∧
  (autocomplete_list depth self prefix).2 ≠ Some NotImplementedError.
Proof.
  split; [done|]. split; [done|]. split; [|split].
  - intros s. split; [done|].
    induction s as [|c s [IH1 IH2]]; simpl; [by split|].
    split; [by rewrite IH1|]. by constructor.
  - unfold autocomplete.
    destruct (descend _ _) as [node|e] eqn:Hd; [done|].
    by destruct (descend_raises _ _ _ Hd) as [-> | ->].
  - unfold autocomplete_list, autocomplete.
    destruct (descend _ _) as [node|e] eqn:Hd; simpl.
    + by destruct (smash_raises_only depth _ (traverse_plain_stops node))
        as [-> | [-> | ->]].
    + by destruct (descend_raises _ _ _ Hd) as [-> | ->].
Qed.

(** In Python 3 a non-empty string is an iterable of one-character
    strings, each again a non-empty string: [_smash] descends into it
    until the recursion limit is hit, whatever that limit is. *)
Lemma smash_str_raises depth : ∀ c s,
  _smash depth (IVal (VStr (String c s))) = ([], Some RecursionError).
Proof.
  induction depth as [|depth IH]; intros c s; simpl; [done|].
  by rewrite IH.
Qed.

(** An iteration whose first object already overflows yields nothing. *)
Lemma smash_head_raises depth i items stop :
  has_iter i = true →
  (∀ depth', _smash depth' i = ([], Some RecursionError)) →
  _smash depth (IGen (i :: items) stop) = ([], Some RecursionError).
Proof.
  intros Hiter Hi. destruct depth as [|depth]; simpl; [done|].
  by rewrite Hiter, Hi.
Qed.

(** [_smash] yields an object only in the branch taken when the test
    [getattr(i, '__iter__', False)] fails. *)
Lemma smash_loop_yields smash items stop v :
  (∀ i, v ∈ (smash i).1 → has_iter (IVal v) = false) →
  v ∈ (smash_loop smash items stop).1 → has_iter (IVal v) = false.
Proof.
  intros Hsmash. induction items as [|i items IH]; simpl.
  - by intros ?%elem_of_nil.
  - destruct (has_iter i) eqn:Hiter.
    + specialize (Hsmash i). destruct (smash i) as [js [e|]]; [done|].
      destruct (smash_loop smash items stop) as [ks e]. simpl in *.
      intros [?|?]%elem_of_app; auto.
    + destruct i as [v'|]; [|done].
      destruct (smash_loop smash items stop) as [ks e]. simpl in *.
      intros [->|?]%elem_of_cons; auto.
Qed.

Lemma smash_yields_no_iterable depth : ∀ i v,
  v ∈ (_smash depth i).1 → has_iter (IVal v) = false.
Proof.
  induction depth as [|depth IH]; intros i v; simpl.
  - by intros ?%elem_of_nil.
  - destruct (iterate i) as [items stop]. apply smash_loop_yields.
    intros i'. apply IH.
Qed.

(** X15.  Whatever the trie, the prefix and the recursion limit, every
    element that [list(autocomplete(prefix))] delivers is an object
    without [__iter__]: never a string, hence never an inserted word,
    and never a dictionary, since [_smash] descends into everything
    that has an [__iter__]. *)
Lemma autocomplete_yields_no_iterable depth self prefix v :
  v ∈ (autocomplete_list depth self prefix).1 →
  has_iter (IVal v) = false ∧ (∀ s, v ≠ VStr s) ∧ (∀ d, v ≠ VDict d).
Proof.
  intros Hin.
  assert (has_iter (IVal v) = false) as Hv.
  { revert Hin. unfold autocomplete_list.
    destruct (autocomplete self prefix) as [[|g]|e]; simpl.
    - by intros ?%elem_of_nil.
    - apply smash_yields_no_iterable.
    - by intros ?%elem_of_nil. }
  split; [done|]. split; intros ? ->; done.
Qed.

Lemma autocomplete_yields_no_iterable_witness :
  let self :=
    (run [OpAdd "a"; OpAdd "ab"; OpAssign "a" "" ANone]
       (Trie_init (Known STANDARD) ":", mkFs ∅ ∅)).1 in
  VNone ∈ (autocomplete_list 3 self (PStr "a")).1 ∧
  has_iter (IVal VNone) = false ∧
  (∀ s, VNone ≠ VStr s) ∧ (∀ d, VNone ≠ VDict d).
Proof.
  intros self.
  assert (VNone ∈ (autocomplete_list 3 self (PStr "a")).1) as Hin.
  { vm_compute. left. }
  split; [exact Hin|].
  exact (autocomplete_yields_no_iterable 3 self (PStr "a") VNone Hin).
Defined.

(** C1 (evaluation of the code).  On the trie of the class docstring,
    [list(t.autocomplete('appl'))] raises [RecursionError] under every
    recursion limit and delivers none of the four words the docstring
    expects; on a segmented trie holding [a:b:c], the string prefix
    [a:b] is walked character by character and has no completion. *)
Theorem autocomplete_doctest_raises (depth : nat) :
  autocomplete_list depth doctest_trie (PStr "appl")
  = ([], Some RecursionError) ∧
  autocomplete (add (Trie_init (Known EXTENDED) ":") "a:b:c").2 (PStr "a:b")
  = Ok EmptyList.
Proof.
  split; [|reflexivity].
  unfold autocomplete_list.
  replace (autocomplete doctest_trie (PStr "appl"))
    with (Ok (Smash (_traverse (VDict
      [("e", VDict [("", VStr "apple");
                    ("s", VDict [("a", VDict [("u", VDict [("c", VDict
                      [("e", VDict [("", VStr "applesauce")])])])])]);
                    ("j", VDict [("a", VDict [("c", VDict [("k", VDict
                      [("", VStr "applejack")])])])])]);
       ("i", VDict [("c", VDict [("a", VDict [("t", VDict [("i", VDict
                      [("o", VDict [("n", VDict
                         [("", VStr "application")])])])])])])])]))))
    by reflexivity.
  simpl consume. simpl _traverse.
  apply smash_head_raises; [done|]. intros depth'.
  apply smash_head_raises; [done|]. intros depth''.
  apply smash_str_raises.
Qed.

(** C3 (evaluation of the code).  In a fresh segmented trie with
    delimiter [:] that received [a:b:c], [contains] answers [True] for
    [a:b:c] and then [False] for [a:b]; [autocomplete] with the string
    [a:b] returns the empty list, and with the token list [a], [b]
    collecting the result raises [RecursionError] under every recursion
    limit. *)
Theorem segmented_example (depth : nat) :
  let self := (add (Trie_init (Known EXTENDED) ":") "a:b:c").2 in
  let self' := (contains self "a:b:c").2 in
  (contains self "a:b:c").1 = Ok true ∧
  (contains self' "a:b").1 = Ok false ∧
  autocomplete_list depth self (PStr "a:b") = ([], None) ∧
  autocomplete_list depth self (PList ["a"; "b"]) = ([], Some RecursionError).
Proof.
  repeat split.
  unfold autocomplete_list. simpl autocomplete. simpl consume.
  apply smash_head_raises; [done|]. intros depth'.
  apply smash_head_raises; [done|]. intros depth''.
  apply smash_str_raises.
Qed.

(** ** JSON text *)

#[local] Arguments String.append !_ _ / : simpl nomatch.

Lemma append_assoc (a b c : string) : (a +:+ b) +:+ c = a +:+ (b +:+ c).
Proof. induction a as [|x a IH]; simpl; [done|by f_equal]. Qed.

Lemma append_length (a b : string) :
  String.length (a +:+ b) = String.length a + String.length b.
Proof. induction a as [|x a IH]; simpl; [done|by f_equal]. Qed.

(** The scanner reads back each escaped character. *)
Lemma scanstring_escape_char c X :
  scanstring (escape_char c +:+ X)
  = ('(t, r) ← scanstring X; Some (String c t, r)).
Proof. destruct c as [[] [] [] [] [] [] [] []]; reflexivity. Qed.

Lemma scanstring_escape_all s X :
  scanstring (escape_all s +:+ String dquote X) = Some (s, X).
Proof.
  induction s as [|c s IH]; simpl; [done|].
  by rewrite append_assoc, scanstring_escape_char, IH.
Qed.

Lemma scan_once_string fuel s X :
  scan_once (S fuel) (encode_string s +:+ X) = Some (VStr s, X).
Proof.
  unfold encode_string. simpl. rewrite append_assoc. simpl.
  by rewrite scanstring_escape_all.
Qed.

Lemma skip_ws_dumps v X : skip_ws (json_dumps v +:+ X) = json_dumps v +:+ X.
Proof. by destruct v. Qed.

Lemma join_members_tail d :
  d ≠ [] →
  join_members (map (λ '(k, x), encode_string k +:+ ": " +:+ json_dumps x) d)
  = String dquote (members_tail d).
Proof.
  induction d as [|[k x] d IH]; [done|]. intros _.
  destruct d as [|[k' x'] d].
  - simpl. unfold encode_string, member_tail. simpl.
    by rewrite append_assoc.
  - change (join_members (map _ ((k, x) :: (k', x') :: d)))
      with ((encode_string k +:+ ": " +:+ json_dumps x) +:+ ", " +:+
            join_members (map (λ '(k, x), encode_string k +:+ ": " +:+
                                 json_dumps x) ((k', x') :: d))).
    rewrite IH by done.
    change (members_tail ((k, x) :: (k', x') :: d))
      with (member_tail k x +:+ ", " +:+
            String dquote (members_tail ((k', x') :: d))).
    unfold encode_string, member_tail. simpl.
    by rewrite !append_assoc.
Qed.

Lemma dict_set_fresh d k v : k ∉ d.*1 → dict_set d k v = d ++ [(k, v)].
Proof.
  induction d as [|[k0 v0] d IH]; simpl; [done|].
  rewrite not_elem_of_cons. intros [Hne Hd].
  destruct (String.eqb_spec k0 k); [by subst|]. by rewrite IH.
Qed.

Lemma dict_of_pairs_app pairs : ∀ d,
  NoDup (d.*1 ++ pairs.*1) →
  fold_left (λ d kv, dict_set d kv.1 kv.2) pairs d = d ++ pairs.
Proof.
  induction pairs as [|[k v] pairs IH]; intros d; simpl.
  - intros _. by rewrite app_nil_r.
  - intros Hnd. rewrite dict_set_fresh.
    + rewrite IH; [by rewrite <-app_assoc|].
      by rewrite fmap_app, <-app_assoc.
    + apply NoDup_app in Hnd as (_ & Hnd & _). intros Hin.
      apply (Hnd k Hin). left.
Qed.

Lemma dict_of_pairs_id d : NoDup d.*1 → dict_of_pairs d = d.
Proof. intros Hnd. unfold dict_of_pairs. by rewrite dict_of_pairs_app. Qed.

#[local] Arguments members_tail : simpl never.

Lemma members_tail_cons k x kv d :
  members_tail ((k, x) :: kv :: d)
  = member_tail k x +:+ ", " +:+ String dquote (members_tail (kv :: d)).
Proof. by destruct kv. Qed.

(** One round of the member loop: the name, the colon and the value. *)
Lemma scan_member fuel k x rest :
  reads_back x →
  (String.length (json_dumps x) ≤ fuel)%nat →
  scan_members (S fuel) (member_tail k x +:+ rest)
  = match skip_ws rest with
    | EmptyString => None
    | String c' s4 =>
        if Ascii.eqb c' "}" then Some ([(k, x)], s4)
        else if Ascii.eqb c' "," then
          match skip_ws s4 with
          | EmptyString => None
          | String c'' s5 =>
              if Ascii.eqb c'' dquote then
                '(pairs, r) ← scan_members fuel s5;
                Some ((k, x) :: pairs, r)
              else None
          end
        else None
    end.
Proof.
  intros Hx Hfuel. unfold member_tail. rewrite append_assoc. simpl.
  rewrite scanstring_escape_all. simpl.
  by rewrite skip_ws_dumps, Hx.
Qed.

Lemma member_tail_length k x :
  (String.length (json_dumps x) < String.length (member_tail k x))%nat.
Proof. unfold member_tail. rewrite append_length. simpl. lia. Qed.

Lemma scan_members_tail d :
  d ≠ [] →
  Forall (λ kv, reads_back kv.2) d →
  ∀ fuel X, (String.length (members_tail d) < fuel)%nat →
    scan_members fuel (members_tail d +:+ String "}" X) = Some (d, X).
Proof.
  induction d as [|[k x] d IH]; [done|]. intros _ Hall fuel X Hfuel.
  apply Forall_cons in Hall as [Hx Hall]. simpl in Hx.
  destruct fuel as [|fuel]; [lia|].
  pose proof (member_tail_length k x) as Hlen.
  destruct d as [|kv d].
  - change (members_tail [(k, x)]) with (member_tail k x) in *.
    rewrite scan_member by (done || lia). done.
  - rewrite members_tail_cons in *.
    rewrite !append_length in Hfuel. simpl in Hfuel.
    rewrite append_assoc, scan_member by (done || lia). simpl.
    rewrite IH; [done|done|done|lia].
Qed.

Lemma wf_val_dict d :
  wf_val (VDict d) = true → NoDup d.*1 ∧ Forall (λ kv, wf_val kv.2 = true) d.
Proof.
  simpl. intros [Hnd Hall]%andb_prop. split.
  - by apply bool_decide_eq_true_1 in Hnd.
  - rewrite forallb_forall in Hall. apply Forall_forall.
    intros [k x] Hin. apply (Hall (k, x)). by apply list_elem_of_In.
Qed.

(** The decoder reads back what the encoder wrote, whatever follows. *)
Lemma scan_once_dumps v : wf_val v = true → reads_back v.
Proof.
  induction v as [|s|d IH] using pyval_ind; intros Hwf fuel X Hfuel.
  - simpl in Hfuel. by do 4 (destruct fuel as [|fuel]; [lia|]).
  - destruct fuel as [|fuel]; [simpl in Hfuel; lia|]. apply scan_once_string.
  - apply wf_val_dict in Hwf as [Hnd Hwf].
    assert (Forall (λ kv, reads_back kv.2) d) as Hall.
    { apply Forall_forall. intros kv Hin.
      rewrite Forall_forall in IH, Hwf. by apply IH, Hwf. }
    destruct (decide (d = [])) as [->|Hne].
    + by destruct fuel as [|fuel]; [simpl in Hfuel; lia|].
    + cbn [json_dumps] in *. rewrite join_members_tail in * by done.
      simpl in Hfuel. rewrite append_length in Hfuel. simpl in Hfuel.
      destruct fuel as [|fuel]; [lia|].
      simpl. rewrite append_assoc. simpl.
      rewrite scan_members_tail by (done || lia). simpl.
      by rewrite dict_of_pairs_id.
Qed.

Lemma no_line_end_append a b :
  no_line_end a = true → no_line_end b = true → no_line_end (a +:+ b) = true.
Proof.
  induction a as [|c a IH]; simpl; [done|].
  intros [-> Ha]%andb_prop Hb. simpl. auto.
Qed.

Lemma no_line_end_escape_char c : no_line_end (escape_char c) = true.
Proof. destruct c as [[] [] [] [] [] [] [] []]; reflexivity. Qed.

Lemma no_line_end_encode_string s : no_line_end (encode_string s) = true.
Proof.
  unfold encode_string. simpl. apply no_line_end_append; [|done].
  induction s as [|c s IH]; simpl; [done|].
  apply no_line_end_append; [apply no_line_end_escape_char|done].
Qed.

Lemma no_line_end_join members :
  Forall (λ m, no_line_end m = true) members →
  no_line_end (join_members members) = true.
Proof.
  induction 1 as [|m members Hm Hall IH]; [done|].
  destruct members as [|m' members]; [done|].
  change (join_members (m :: m' :: members))
    with (m +:+ ", " +:+ join_members (m' :: members)).
  repeat apply no_line_end_append; done.
Qed.

(** The text [json.dumps] produces is one line: line feeds and carriage
    returns inside strings are written as escapes. *)
Lemma no_line_end_dumps v : no_line_end (json_dumps v) = true.
Proof.
  induction v as [|s|d IH] using pyval_ind.
  - done.
  - apply no_line_end_encode_string.
  - cbn [json_dumps]. repeat apply no_line_end_append; try done.
    apply no_line_end_join, Forall_fmap.
    eapply Forall_impl; [exact IH|]. intros [k x] Hx.
    apply no_line_end_append; [apply no_line_end_encode_string|].
    apply no_line_end_append; [done|exact Hx].
Qed.

Lemma readline_no_line_end s :
  no_line_end s = true →
  readline (s +:+ String newline "") = s +:+ String newline "".
Proof.
  induction s as [|c s IH]; simpl; [done|].
  intros [Hc Hs]%andb_prop. apply negb_true_iff in Hc. rewrite Hc.
  by rewrite IH.
Qed.

(** Reading back the line written for a value gives the value. *)
Lemma json_loads_dumps v :
  wf_val v = true →
  json_loads (readline (json_dumps v +:+ String newline "")) = Ok v.
Proof.
  intros Hwf. rewrite readline_no_line_end by apply no_line_end_dumps.
  unfold json_loads. rewrite skip_ws_dumps, scan_once_dumps; [done|done|].
  rewrite append_length. lia.
Qed.

(** ** Distinct keys are kept *)

Lemma wf_val_dict_intro d :
  NoDup d.*1 → Forall (λ kv, wf_val kv.2 = true) d → wf_val (VDict d) = true.
Proof.
  intros Hnd Hall. simpl. apply andb_true_intro. split.
  - by apply bool_decide_eq_true_2.
  - apply forallb_forall. intros [k x] Hin%list_elem_of_In.
    rewrite Forall_forall in Hall. apply (Hall (k, x) Hin).
Qed.

Lemma dict_set_wf d k v :
  wf_val (VDict d) = true → wf_val v = true →
  wf_val (VDict (dict_set d k v)) = true.
Proof.
  intros [Hnd Hall]%wf_val_dict Hv. apply wf_val_dict_intro.
  - destruct (dict_get d k) as [x|] eqn:Hget.
    + by rewrite dict_keys_set_present.
    + rewrite dict_keys_set by done. apply NoDup_app. split; [done|].
      split; [|apply NoDup_singleton].
      intros k' Hin ->%list_elem_of_singleton.
      by apply dict_get_None in Hget.
  - clear Hnd. induction Hall as [|[k0 v0] d H0 Hall IH]; simpl.
    + by constructor.
    + destruct (String.eqb k0 k); constructor; done.
Qed.

Lemma setitem_wf node key value r :
  wf_val node = true → wf_val value = true →
  setitem node key value = Ok r → wf_val r = true.
Proof.
  intros Hn Hv (d & -> & ->)%setitem_Ok. by apply dict_set_wf.
Qed.

Lemma getitem_wf node char child :
  wf_val node = true → getitem node char = Ok child → wf_val child = true.
Proof.
  destruct node as [|s|d]; simpl; try done.
  intros [_ Hall]%wf_val_dict.
  destruct (dict_get d char) as [x|] eqn:Hget; [|done]. intros [= <-].
  rewrite Forall_forall in Hall.
  apply (Hall (char, x)), dict_get_elem_of, Hget.
Qed.

Lemma add_from_wf iterator word : ∀ node r,
  wf_val node = true → add_from node iterator word = Ok r → wf_val r = true.
Proof.
  induction iterator as [|char rest IH]; intros node r Hwf; simpl.
  - by apply setitem_wf.
  - destruct (getitem node char) as [child|[]] eqn:Hget; try done.
    + destruct (add_from child rest word) as [child'|] eqn:Hadd; [|done].
      simpl. apply setitem_wf; [done|].
      apply (IH child); [by apply (getitem_wf node char)|done].
    + destruct (add_from (VDict []) rest word) as [child'|] eqn:Hadd; [|done].
      simpl. apply setitem_wf; [done|]. by apply (IH (VDict [])).
Qed.

Lemma assign_from_wf iterator key value : ∀ node r,
  wf_val node = true → wf_val value = true →
  assign_from node iterator key value = Ok r → wf_val r = true.
Proof.
  induction iterator as [|char rest IH]; intros node r Hwf Hv; simpl.
  - by apply setitem_wf.
  - destruct (getitem node char) as [child|] eqn:Hget; [|done]. simpl.
    destruct (assign_from child rest key value) as [child'|] eqn:Has; [|done].
    simpl. apply setitem_wf; [done|].
    apply (IH child); [by apply (getitem_wf node char)|done|done].
Qed.

Lemma dict_of_pairs_wf pairs :
  Forall (λ kv, wf_val kv.2 = true) pairs →
  wf_val (VDict (dict_of_pairs pairs)) = true.
Proof.
  intros Hall. unfold dict_of_pairs.
  assert (∀ d, wf_val (VDict d) = true →
    wf_val (VDict (fold_left (λ d kv, dict_set d kv.1 kv.2) pairs d)) = true)
    as Hfold; [|by apply Hfold].
  induction Hall as [|[k v] pairs Hv Hall IH]; intros d Hd; simpl; [done|].
  apply IH. by apply dict_set_wf.
Qed.

(** The decoder only builds dictionaries with distinct keys. *)
Lemma scan_wf fuel :
  (∀ s v r, scan_once fuel s = Some (v, r) → wf_val v = true) ∧
  (∀ s pairs r, scan_members fuel s = Some (pairs, r) →
     Forall (λ kv, wf_val kv.2 = true) pairs).
Proof.
  induction fuel as [|fuel [IHo IHm]]; [done|]. split.
  - intros s v r Hscan. simpl in Hscan.
    repeat (case_match; simplify_option_eq; try done).
    apply dict_of_pairs_wf. eauto.
  - intros s pairs r Hscan. simpl in Hscan.
    destruct (scanstring s) as [[key s1]|]; [|done]. simpl in Hscan.
    destruct (skip_ws s1) as [|c s2]; [done|].
    destruct (Ascii.eqb c ":"); [|done].
    destruct (scan_once fuel (skip_ws s2)) as [[value s3]|] eqn:Hv; [|done].
    simpl in Hscan. destruct (skip_ws s3) as [|c' s4]; [done|].
    destruct (Ascii.eqb c' "}").
    { injection Hscan as <- <-. constructor; [|constructor]. simpl. eauto. }
    destruct (Ascii.eqb c' ","); [|done].
    destruct (skip_ws s4) as [|c'' s5]; [done|].
    destruct (Ascii.eqb c'' dquote); [|done].
    destruct (scan_members fuel s5) as [[pairs' r']|] eqn:Hm; [|done].
    simpl in Hscan. injection Hscan as <- <-. constructor; simpl; eauto.
Qed.

Lemma json_loads_wf s v : json_loads s = Ok v → wf_val v = true.
Proof.
  unfold json_loads.
  destruct (scan_once _ _) as [[obj r]|] eqn:Hscan; [|done].
  destruct (String.eqb _ _); [|done]. intros [= <-].
  by eapply (scan_wf (String.length s)).
Qed.

Lemma step_wf w o : wf_val (root w.1) = true → wf_val (root (step w o).1) = true.
Proof.
  intros Hwf. destruct o; simpl; try done.
  - unfold add. destruct (_get_iterator _ _) as [iterator|]; [|done].
    destruct (add_from _ _ _) as [r|] eqn:Hadd; [|done].
    by eapply add_from_wf.
  - revert w Hwf. induction words as [|word words IH]; intros w Hwf; [done|].
    simpl. unfold add at 1.
    destruct (_get_iterator _ _) as [iterator|]; [|done].
    destruct (add_from _ _ _) as [r|] eqn:Hadd; [|done].
    apply (IH (set_root w.1 r, w.2)). by eapply add_from_wf.
  - unfold assign. destruct (_get_iterator _ _); [|done].
    destruct (assign_from _ _ _ _) as [r|[]] eqn:Has; try done.
    eapply assign_from_wf; [done| |done]. by destruct value.
  - by destruct (contains_frame w.1 word) as [-> _].
  - unfold load. destruct (decide _); [done|].
    destruct (files w.2 !! filename); [|done].
    destruct (json_loads _) eqn:Hl; [|done]. by eapply json_loads_wf.
Qed.

(** Every trie obtained from a new one by calls of its methods has
    distinct keys in each of its dictionaries. *)
Lemma run_wf ops : ∀ w,
  wf_val (root w.1) = true → wf_val (root (run ops w).1) = true.
Proof.
  induction ops as [|o ops IH]; intros w Hwf; simpl; [done|].
  by apply IH, step_wf.
Qed.

(** ** Persistence *)

(** The undecorated membership test reads the graph, the mode and the
    delimiter only. *)
Lemma contains_body_ext self self' word :
  root self' = root self → type self' = type self →
  delimiter self' = delimiter self →
  __contains__ self' word = __contains__ self word.
Proof.
  intros Hr Ht Hd. unfold __contains__, _get_iterator.
  by rewrite Hr, Ht, Hd.
Qed.

Lemma contains_miss self word :
  cache self !! word = None → (contains self word).1 = __contains__ self word.
Proof.
  intros Hc. unfold contains, memoize_call. rewrite Hc.
  by destruct (__contains__ self word).
Qed.

(** A written trie with distinct keys in its dictionaries reads back as
    it was. *)
Lemma roundtrip_wf (self : Trie) (filename : string) (fs fs' : filesystem) :
  wf_val (root self) = true →
  unload self filename fs = (Ok (), fs') →
  roundtrip_agrees self
    (load (Trie_init (type self) (delimiter self)) filename fs').
Proof.
  intros Hwf Hun. unfold unload in Hun.
  destruct (decide (filename ∈ denied fs)) as [|Hok]; [done|].
  injection Hun as <-. unfold load. simpl.
  destruct (decide (filename ∈ denied fs)) as [|_]; [done|].
  rewrite lookup_insert_eq, json_loads_dumps by done.
  unfold roundtrip_agrees. simpl.
  assert (∀ word,
    (contains (set_root (Trie_init (type self) (delimiter self)) (root self))
       word).1 = __contains__ self word) as Hfresh.
  { intros word. rewrite contains_miss by done. by apply contains_body_ext. }
  repeat split; try done.
  intros word Hmiss. by rewrite Hfresh, contains_miss.
Qed.




(** ** Character tries *)

Lemma lookup_path_cons d c ps :
  lookup_path (VDict d) (c :: ps)
  = match dict_get d c with
    | Some child => lookup_path child ps
    | None => None
    end.
Proof. unfold lookup_path. simpl. by destruct (dict_get d c). Qed.

Lemma lookup_path_empty ps : lookup_path (VDict []) ps = None.
Proof. by destruct ps. Qed.

(** How [add] proceeds on a non-empty path. *)
Lemma add_from_cons node char rest word r :
  add_from node (char :: rest) word = Ok r →
  ∃ d child child',
    node = VDict d ∧ r = VDict (dict_set d char child') ∧
    add_from child rest word = Ok child' ∧
    (dict_get d char = Some child ∨
     dict_get d char = None ∧ child = VDict []).
Proof.
  simpl. destruct node as [|s|d]; try done. simpl.
  destruct (dict_get d char) as [child|] eqn:Hget.
  - destruct (add_from child rest word) as [child'|] eqn:Hc; [|done].
    intros [= <-]. exists d, child, child'. repeat split; auto.
  - destruct (add_from (VDict []) rest word) as [child'|] eqn:Hc; [|done].
    intros [= <-]. exists d, (VDict []), child'. repeat split; auto.
Qed.

(** [add] stores the word at the end of its path and leaves the terminal
    value of every other path as it was, when no token is empty. *)
Lemma lookup_add_from iterator word : ∀ node r path,
  add_from node iterator word = Ok r →
  Forall (λ t, t ≠ "") iterator → Forall (λ t, t ≠ "") path →
  lookup_path r path
  = if decide (path = iterator) then Some (VStr word) else lookup_path node path.
Proof.
  induction iterator as [|char rest IH]; intros node r path Hadd Hit Hpath.
  - simpl in Hadd. apply setitem_Ok in Hadd as (d & -> & ->).
    destruct path as [|c ps].
    + rewrite decide_True by done. unfold lookup_path. simpl.
      apply dict_get_set_eq.
    + rewrite decide_False by done. apply Forall_cons in Hpath as [Hc _].
      rewrite !lookup_path_cons. by rewrite dict_get_set_ne.
  - apply Forall_cons in Hit as [Hchar Hrest].
    apply add_from_cons in Hadd
      as (d & child & child' & -> & -> & Hchild & Hget).
    destruct path as [|c ps].
    + rewrite decide_False by done. unfold lookup_path. simpl.
      by rewrite dict_get_set_ne.
    + apply Forall_cons in Hpath as [Hc Hps]. rewrite !lookup_path_cons.
      destruct (decide (c = char)) as [->|Hne].
      * rewrite dict_get_set_eq, (IH _ _ _ Hchild Hrest Hps).
        assert (match dict_get d char with
                | Some x => lookup_path x ps
                | None => None
                end = lookup_path child ps) as ->.
        { destruct Hget as [->|[-> ->]]; [done|].
          by rewrite lookup_path_empty. }
        destruct (decide (ps = rest)) as [->|Hps'].
        -- by rewrite decide_True.
        -- rewrite decide_False; [done|congruence].
      * rewrite dict_get_set_ne by done. by rewrite decide_False by congruence.
Qed.

Lemma trie_node_get d c child :
  trie_node (VDict d) = true → c ≠ "" → dict_get d c = Some child →
  trie_node child = true.
Proof.
  intros Hn Hc Hget%dict_get_elem_of. simpl in Hn.
  rewrite forallb_forall in Hn. apply list_elem_of_In, Hn in Hget.
  by destruct (String.eqb_spec c "").
Qed.

Lemma trie_node_set d c child :
  trie_node (VDict d) = true → (c ≠ "" → trie_node child = true) →
  trie_node (VDict (dict_set d c child)) = true.
Proof.
  intros Hn Hchild. simpl in *. induction d as [|[k x] d IH]; simpl in *.
  - destruct (String.eqb_spec c ""); [done|]. by rewrite Hchild.
  - apply andb_prop in Hn as [Hk Hd].
    destruct (String.eqb_spec k c) as [->|Hne]; simpl.
    + rewrite Hd. destruct (String.eqb_spec c ""); [done|]. by rewrite Hchild.
    + by rewrite Hk, IH.
Qed.

(** In a graph of nodes, following tokens ends at a node or with
    [KeyError]. *)
Lemma descend_trie_node path : ∀ n,
  trie_node n = true → Forall (λ t, t ≠ "") path →
  (∃ d, descend n path = Ok (VDict d) ∧ trie_node (VDict d) = true) ∨
  descend n path = Raise KeyError.
Proof.
  induction path as [|c ps IH]; intros n Hn Hpath.
  - left. destruct n as [|s|d]; try done. eauto.
  - apply Forall_cons in Hpath as [Hc Hps].
    destruct n as [|s|d]; try done. simpl.
    destruct (dict_get d c) as [child|] eqn:Hget; simpl; [|by right].
    apply IH; [|done]. by eapply trie_node_get.
Qed.

(** On a graph of nodes [add] succeeds and gives a graph of nodes. *)
Lemma add_from_trie_node iterator word : ∀ node,
  trie_node node = true → Forall (λ t, t ≠ "") iterator →
  ∃ r, add_from node iterator word = Ok r ∧ trie_node r = true.
Proof.
  induction iterator as [|char rest IH]; intros node Hn Hit.
  - destruct node as [|s|d]; try done. simpl. eexists. split; [done|].
    by apply trie_node_set.
  - apply Forall_cons in Hit as [Hchar Hrest].
    destruct node as [|s|d]; try done. simpl.
    destruct (dict_get d char) as [child|] eqn:Hget.
    + destruct (IH child) as (child' & -> & Hc'); [|done|].
      { by eapply trie_node_get. }
      simpl. eexists. split; [done|]. by apply trie_node_set.
    + destruct (IH (VDict [])) as (child' & -> & Hc'); [done|done|].
      simpl. eexists. split; [done|]. by apply trie_node_set.
Qed.

(** A path that [add] made walkable was walkable before, or leads
    towards the added word. *)
Lemma descend_add_from iterator word : ∀ node r path node',
  add_from node iterator word = Ok r →
  Forall (λ t, t ≠ "") iterator → Forall (λ t, t ≠ "") path →
  descend r path = Ok node' →
  (∃ old, descend node path = Ok old) ∨ path `prefix_of` iterator.
Proof.
  induction iterator as [|char rest IH]; intros node r path node' Hadd Hit Hpath.
  - simpl in Hadd. apply setitem_Ok in Hadd as (d & -> & ->).
    destruct path as [|c ps]; [by right|].
    apply Forall_cons in Hpath as [Hc _]. simpl.
    rewrite dict_get_set_ne by done. eauto.
  - apply Forall_cons in Hit as [Hchar Hrest].
    apply add_from_cons in Hadd
      as (d & child & child' & -> & -> & Hchild & Hget).
    destruct path as [|c ps]; [intros _; right; apply prefix_nil|].
    apply Forall_cons in Hpath as [Hc Hps]. simpl.
    destruct (decide (c = char)) as [->|Hne].
    + rewrite dict_get_set_eq. simpl. intros Hdesc.
      destruct (IH _ _ _ _ Hchild Hrest Hps Hdesc) as [[old Hold]|Hpre].
      * destruct Hget as [Hget|[Hget ->]].
        -- left. rewrite Hget. simpl. eauto.
        -- right. destruct ps; [apply prefix_cons, prefix_nil|done].
      * right. by apply prefix_cons.
    + rewrite dict_get_set_ne by done. eauto.
Qed.

(** *** Characters as tokens *)

Lemma chars_nonempty s : Forall (λ t, t ≠ "") (chars s).
Proof. induction s as [|c s IH]; simpl; constructor; done. Qed.

Lemma chars_inj s1 s2 : chars s1 = chars s2 → s1 = s2.
Proof.
  revert s2. induction s1 as [|c s1 IH]; intros [|c' s2]; simpl; try done.
  intros [= -> H]. by rewrite (IH _ H).
Qed.

Lemma chars_append s1 s2 : chars (s1 +:+ s2) = chars s1 ++ chars s2.
Proof.
  induction s1 as [|c s1 IH]; [done|].
  change (String c s1 +:+ s2) with (String c (s1 +:+ s2)). simpl.
  by rewrite IH.
Qed.

Lemma chars_prefix p w :
  chars p `prefix_of` chars w ↔ String.prefix p w = true.
Proof.
  revert w. induction p as [|c p IH]; intros w; simpl.
  - split; [by destruct w|intros _; apply prefix_nil].
  - destruct w as [|c' w]; simpl.
    + split; [|done]. by intros ?%prefix_nil_inv.
    + destruct (ascii_dec c c') as [->|Hne].
      * rewrite <-IH. split; [apply prefix_cons_inv_2|apply prefix_cons].
      * split; [|done]. intros Hp%prefix_cons_inv_1. congruence.
Qed.

(** *** The words of a trie *)

Lemma get_iterator_standard self word :
  type self = Known STANDARD → _get_iterator self word = Ok (chars word).
Proof. unfold _get_iterator. by intros ->. Qed.

Lemma add_standard self word :
  type self = Known STANDARD → trie_node (root self) = true →
  ∃ r, add self word = (Ok (), set_root self r) ∧
       add_from (root self) (chars word) word = Ok r ∧
       trie_node r = true.
Proof.
  intros Hty Hn. unfold add. rewrite get_iterator_standard by done.
  destruct (add_from_trie_node (chars word) word (root self) Hn)
    as (r & Hadd & Hr); [apply chars_nonempty|].
  rewrite Hadd. eauto.
Qed.

(** The graph after [update]: it stores each word of [words] at the end
    of its characters, keeps the other terminal values, and only makes
    paths walkable that lead towards one of the words. *)
Lemma update_standard words : ∀ self,
  type self = Known STANDARD → trie_node (root self) = true →
  ∃ r, update self words = (Ok (), set_root self r) ∧
    trie_node r = true ∧
    (wf_val (root self) = true → wf_val r = true) ∧
    (∀ path v, Forall (λ t, t ≠ "") path →
       lookup_path r path = Some v ↔
       (∃ w, w ∈ words ∧ chars w = path ∧ v = VStr w) ∨
       ((∀ w, w ∈ words → chars w ≠ path) ∧
        lookup_path (root self) path = Some v)) ∧
    (∀ path node', Forall (λ t, t ≠ "") path → descend r path = Ok node' →
       (∃ old, descend (root self) path = Ok old) ∨
       ∃ w, w ∈ words ∧ path `prefix_of` chars w).
Proof.
  induction words as [|word words IH]; intros self Hty Hn.
  - exists (root self). simpl. destruct self. repeat split; eauto.
    + intros Hl. right. split; [|done]. by intros w ?%elem_of_nil.
    + intros [(w & ?%elem_of_nil & _)|[_ ?]]; done.
  - destruct (add_standard self word Hty Hn) as (r1 & Hadd & Hfrom & Hr1).
    destruct (IH (set_root self r1) Hty Hr1)
      as (r & Hup & Hr & Hwf & Hlook & Hdesc).
    exists r. simpl. rewrite Hadd. split; [exact Hup|]. split; [done|].
    split; [|split].
    + intros Hw. apply Hwf. simpl. by eapply add_from_wf.
    + intros path v Hpath. rewrite (Hlook path v Hpath). simpl.
      rewrite (lookup_add_from _ _ _ _ _ Hfrom (chars_nonempty word) Hpath).
      split.
      * intros [(w & Hw & Hc & Hv)|[Hnone Hl]].
        -- left. exists w. split; [by right|done].
        -- destruct (decide (path = chars word)) as [->|Hne].
           ++ injection Hl as <-. left. exists word. split; [left|done].
           ++ right. split; [|done].
              intros w [->|Hw]%elem_of_cons; [done|by apply Hnone].
      * intros [(w & Hw & Hc & Hv)|[Hnone Hl]].
        -- destruct (decide (Exists (λ w, chars w = path) words))
             as [Hex|Hnex].
           ++ apply Exists_exists in Hex as (w' & Hw' & Hc').
              left. exists w'. split; [done|]. split; [done|].
              rewrite Hv. f_equal. apply chars_inj. congruence.
           ++ right. split.
              { intros w' Hw' Hc'. apply Hnex, Exists_exists. eauto. }
              apply elem_of_cons in Hw as [->|Hw].
              ** by rewrite decide_True, Hv.
              ** exfalso. apply Hnex, Exists_exists. eauto.
        -- right. split.
           ++ intros w Hw. apply Hnone. by right.
           ++ rewrite decide_False; [done|].
              intros ->. by apply (Hnone word); [left|].
    + intros path node' Hpath Hd.
      destruct (Hdesc path node' Hpath Hd) as [[old Hold]|(w & Hw & Hpre)].
      * simpl in Hold.
        destruct (descend_add_from _ _ _ _ _ _ Hfrom (chars_nonempty word)
                    Hpath Hold) as [?|Hpre]; [by left|].
        right. exists word. split; [left|done].
      * right. exists w. split; [by right|done].
Qed.

(** *** What the traversal holds *)

Lemma dict_get_of_elem d k x :
  NoDup d.*1 → (k, x) ∈ d → dict_get d k = Some x.
Proof.
  induction d as [|[k0 x0] d IH]; csimpl; [by intros _ ?%elem_of_nil|].
  intros [Hk0 Hnd]%NoDup_cons [[= -> ->]|Hin]%elem_of_cons.
  - by rewrite String.eqb_refl.
  - destruct (String.eqb_spec k0 k) as [->|Hne]; [|by apply IH].
    exfalso. apply Hk0. apply list_elem_of_fmap. by exists (k, x).
Qed.

(** The leaves below a node are the terminal values at the ends of the
    token paths that start there. *)
Lemma leaves_traverse n :
  trie_node n = true → wf_val n = true →
  ∀ v, v ∈ leaves (_traverse n) ↔
       ∃ path, Forall (λ t, t ≠ "") path ∧ lookup_path n path = Some v.
Proof.
  induction n as [|s|d IH] using pyval_ind; try done.
  intros Hn [Hnd Hwf]%wf_val_dict v. simpl.
  rewrite list_elem_of_In, in_flat_map. split.
  - intros (i & Hi%in_map_iff & Hv). destruct Hi as ([k x] & <- & Hin).
    apply list_elem_of_In in Hin, Hv.
    pose proof (dict_get_of_elem d k x Hnd Hin) as Hget.
    destruct (String.eqb_spec k "") as [->|Hk].
    + apply list_elem_of_singleton in Hv as ->. exists []. split; [done|].
      unfold lookup_path. by simpl.
    + rewrite Forall_forall in IH, Hwf.
      apply (IH (k, x) Hin) in Hv as (path & Hpath & Hl).
      * exists (k :: path). split; [by constructor|].
        by rewrite lookup_path_cons, Hget.
      * by eapply trie_node_get.
      * by apply (Hwf (k, x)).
  - intros ([|c ps] & Hpath & Hl).
    + unfold lookup_path in Hl. simpl in Hl.
      apply dict_get_elem_of in Hl.
      exists (IVal v). split; [|by left].
      apply in_map_iff. exists ("", v). split; [done|].
      by apply list_elem_of_In.
    + apply Forall_cons in Hpath as [Hc Hps].
      rewrite lookup_path_cons in Hl.
      destruct (dict_get d c) as [child|] eqn:Hget; [|done].
      pose proof (dict_get_elem_of _ _ _ Hget) as Hin.
      exists (_traverse child). split.
      * apply in_map_iff. exists (c, child). split.
        -- by destruct (String.eqb_spec c "").
        -- by apply list_elem_of_In.
      * apply list_elem_of_In. rewrite Forall_forall in IH, Hwf.
        apply (IH (c, child) Hin).
        -- by eapply trie_node_get.
        -- by apply (Hwf (c, child)).
        -- eauto.
Qed.

Lemma descend_wf path : ∀ n node,
  wf_val n = true → descend n path = Ok node → wf_val node = true.
Proof.
  induction path as [|c ps IH]; intros n node Hwf; simpl.
  - by intros [= <-].
  - destruct (getitem n c) as [child|] eqn:Hget; [|done]. simpl.
    apply IH. by apply (getitem_wf n c).
Qed.

Lemma lookup_path_app n pre path node :
  descend n pre = Ok node →
  lookup_path n (pre ++ path) = lookup_path node path.
Proof. intros Hd. unfold lookup_path. by rewrite descend_app, Hd. Qed.

Lemma descend_empty path node :
  descend (VDict []) path = Ok node → path = [].
Proof. by destruct path. Qed.

(** X16.  The character trie built from [words].  [update] succeeds; the
    undecorated membership test answers for exactly the words; the
    generators of [_traverse] below the node a prefix leads to hold
    exactly the words that start with the prefix; for a prefix some word
    starts with, [autocomplete] finds that node and returns the
    flattening of just those generators; and a non-empty prefix no word
    starts with gives the empty list. *)
Theorem character_trie_contents (words : list string) (delim : string) :
  let t := update (Trie_init (Known STANDARD) delim) words in
  t.1 = Ok () ∧
  (∀ k, __contains__ t.2 k = Ok (bool_decide (k ∈ words))) ∧
  (∀ p node, descend (root t.2) (chars p) = Ok node →
     ∀ v, v ∈ leaves (_traverse node) ↔
          ∃ w, w ∈ words ∧ String.prefix p w = true ∧ v = VStr w) ∧
  (∀ p w, w ∈ words → String.prefix p w = true →
     ∃ node, descend (root t.2) (chars p) = Ok node ∧
       autocomplete t.2 (PStr p) = Ok (Smash (_traverse node)) ∧
       ∀ v, v ∈ leaves (_traverse node) ↔
            ∃ w', w' ∈ words ∧ String.prefix p w' = true ∧ v = VStr w') ∧
  (∀ p, p ≠ "" → (∀ w, w ∈ words → String.prefix p w = false) →
     autocomplete t.2 (PStr p) = Ok EmptyList).
Proof.
  intros t.
  destruct (update_standard words (Trie_init (Known STANDARD) delim))
    as (r & Hup & Hr & Hwf & Hlook & Hdesc); [done|done|].
  specialize (Hwf eq_refl). subst t. rewrite Hup. simpl in *.
  assert (∀ path v, Forall (λ t, t ≠ "") path →
    lookup_path r path = Some v ↔
    ∃ w, w ∈ words ∧ chars w = path ∧ v = VStr w) as Hwords.
  { intros path v Hpath. rewrite (Hlook path v Hpath).
    rewrite lookup_path_empty. split; [|by left]. by intros [?|[_ ?]]. }
  assert (∀ p w, w ∈ words → String.prefix p w = true →
    ∃ node, descend r (chars p) = Ok node) as Hfound.
  { intros p w Hw Hp%chars_prefix. destruct Hp as [path Hp].
    assert (lookup_path r (chars w) = Some (VStr w)) as Hl.
    { apply Hwords; [apply chars_nonempty|]. eauto. }
    unfold lookup_path in Hl. rewrite Hp, descend_app in Hl.
    destruct (descend r (chars p)) as [node|]; [eauto|done]. }
  assert (∀ p node, descend r (chars p) = Ok node →
    ∀ v, v ∈ leaves (_traverse node) ↔
         ∃ w, w ∈ words ∧ String.prefix p w = true ∧ v = VStr w) as Hleaves.
  { intros p node Hd v.
    destruct (descend_trie_node (chars p) r Hr (chars_nonempty p))
      as [(d & Hd' & Hnode)| Hd']; rewrite Hd' in Hd; [|done].
    injection Hd as <-.
    rewrite leaves_traverse by (done || by eapply descend_wf). split.
    + intros (path & Hpath & Hl).
      rewrite <-(lookup_path_app r (chars p)) in Hl by done.
      apply Hwords in Hl as (w & Hw & Hc & ->).
      * exists w. split; [done|]. split; [|done].
        apply chars_prefix. by exists path.
      * apply Forall_app. split; [apply chars_nonempty|done].
    + intros (w & Hw & [path Hp]%chars_prefix & ->).
      exists path. split.
      * pose proof (chars_nonempty w) as Hne. rewrite Hp in Hne.
        by apply Forall_app in Hne as [_ ?].
      * rewrite <-(lookup_path_app r (chars p)) by done.
        apply Hwords; [|eauto].
        rewrite <-Hp. apply chars_nonempty. }
  split; [done|]. split; [|split; [|split]].
  - intros k. unfold __contains__. simpl.
    destruct (descend_trie_node (chars k) r Hr (chars_nonempty k))
      as [(d & Hd & _)| Hd]; rewrite Hd; simpl.
    + f_equal. apply bool_decide_ext.
      pose proof (Hwords (chars k)) as Hk. unfold lookup_path in Hk.
      rewrite Hd in Hk. split.
      * intros [v Hv]. apply Hk in Hv as (w & Hw & ->%chars_inj & _);
          [done|apply chars_nonempty].
      * intros Hin. exists (VStr k). apply Hk; [apply chars_nonempty|eauto].
    + f_equal. symmetry. apply bool_decide_eq_false_2. intros Hin.
      assert (lookup_path r (chars k) = Some (VStr k)) as Hl.
      { apply Hwords; [apply chars_nonempty|]. eauto. }
      unfold lookup_path in Hl. by rewrite Hd in Hl.
  - exact Hleaves.
  - intros p w Hw Hp. destruct (Hfound p w Hw Hp) as [node Hd].
    exists node. split; [done|]. split; [|by apply Hleaves].
    unfold autocomplete. simpl. by rewrite Hd.
  - intros p Hp Hnone. unfold autocomplete. simpl.
    destruct (descend_trie_node (chars p) r Hr (chars_nonempty p))
      as [(d & Hd & _)| Hd]; rewrite Hd; [|done].
    exfalso.
    destruct (Hdesc _ _ (chars_nonempty p) Hd)
      as [[old Hold%descend_empty]|(w & Hw & Hpre%chars_prefix)].
    + by destruct p.
    + by rewrite (Hnone w Hw) in Hpre.
Qed.

(** * Further properties of the methods *)

(** ** Tokens *)

Lemma append_nil_r (s : string) : s +:+ "" = s.
Proof. induction s as [|c s IH]; simpl; [done|by f_equal]. Qed.

Lemma str_join_cons sep t t' rest :
  str_join sep (t :: t' :: rest) = t +:+ sep +:+ str_join sep (t' :: rest).
Proof. done. Qed.

Lemma str_join_chars s : str_join "" (chars s) = s.
Proof.
  induction s as [|c s IH]; [done|]. simpl chars.
  destruct s as [|c' s]; [done|].
  change (chars (String c' s)) with (String c' "" :: chars s) in *.
  rewrite str_join_cons, IH. done.
Qed.

Lemma prefix_append sep s :
  String.prefix sep s = true → ∃ rest, s = sep +:+ rest.
Proof.
  revert s. induction sep as [|c sep IH]; intros s.
  - intros _. by exists s.
  - destruct s as [|c' s]; simpl; [done|].
    destruct (ascii_dec c c') as [->|]; [|done].
    intros [rest ->]%IH. by exists rest.
Qed.

(** Stepping over the rest of an occurrence of the separator. *)
Lemma split_go_skip sep u : ∀ acc rest,
  split_go sep (String.length u) acc (u +:+ rest) = split_go sep 0 acc rest.
Proof.
  induction u as [|c u IH]; intros acc rest; simpl.
  - by destruct rest.
  - apply IH.
Qed.

Lemma split_go_not_nil sep s : ∀ skip acc, split_go sep skip acc s ≠ [].
Proof.
  induction s as [|c s IH]; intros skip acc; cbn [split_go]; [done|].
  destruct skip; [|apply IH].
  destruct (String.prefix sep (String c s)); [discriminate|apply IH].
Qed.

Lemma str_join_split_go sep n : ∀ s acc,
  sep ≠ "" → (String.length s < n)%nat →
  str_join sep (split_go sep 0 acc s) = acc +:+ s.
Proof.
  induction n as [|n IH]; intros s acc Hsep Hlen; [lia|].
  destruct s as [|c s].
  - simpl. by rewrite append_nil_r.
  - cbn [split_go].
    destruct (String.prefix sep (String c s)) eqn:Hp.
    + apply prefix_append in Hp as [rest Hrest].
      destruct sep as [|c0 sep']; [done|]. simpl in Hrest.
      injection Hrest as -> ->.
      replace (String.length (String c0 sep') - 1)%nat
        with (String.length sep') by (simpl; lia).
      rewrite split_go_skip.
      pose proof (split_go_not_nil (String c0 sep') rest 0 "") as Hne.
      destruct (split_go (String c0 sep') 0 "" rest) as [|t ts] eqn:Hs; [done|].
      rewrite str_join_cons, <-Hs, IH; [done|done|].
      simpl in Hlen. rewrite append_length in Hlen. lia.
    + rewrite IH; [|done|simpl in Hlen; lia].
      rewrite append_assoc. done.
Qed.

(** Joining the pieces of [word.split(sep)] with [sep] gives [word]. *)
Lemma str_join_split word sep tokens :
  str_split word sep = Ok tokens → str_join sep tokens = word.
Proof.
  unfold str_split. destruct (String.eqb_spec sep ""); [done|].
  intros [= <-].
  rewrite (str_join_split_go sep (S (String.length word))); [done|done|lia].
Qed.

Lemma str_split_not_nil word sep tokens :
  str_split word sep = Ok tokens → tokens ≠ [].
Proof.
  unfold str_split. destruct (String.eqb sep ""); [done|].
  intros [= <-]. apply split_go_not_nil.
Qed.

Lemma get_iterator_glue self word iterator :
  _get_iterator self word = Ok iterator →
  str_join (token_glue self) iterator = word.
Proof.
  unfold _get_iterator, token_glue. destruct (type self) as [[]|]; [| |done].
  - intros [= <-]. apply str_join_chars.
  - apply str_join_split.
Qed.

Lemma get_iterator_inj self w1 w2 iterator :
  _get_iterator self w1 = Ok iterator → _get_iterator self w2 = Ok iterator →
  w1 = w2.
Proof.
  intros H1%get_iterator_glue H2%get_iterator_glue. congruence.
Qed.

(** X1.  Tokenization loses nothing: the tokens of a word, concatenated
    in character mode and joined by the delimiter in segmented mode, give
    the word back; two words with the same tokens are the same word; and
    a segmented word always has at least one token. *)
Theorem tokens_rebuild_word (self : Trie) (word : string)
    (iterator : list string) :
  _get_iterator self word = Ok iterator →
  str_join (token_glue self) iterator = word ∧
  (∀ word', _get_iterator self word' = Ok iterator → word' = word) ∧
  (type self = Known EXTENDED → iterator ≠ []).
Proof.
  intros Hit. split; [by apply get_iterator_glue|]. split.
  - intros word' Hit'. by eapply get_iterator_inj.
  - intros Hty. unfold _get_iterator in Hit. rewrite Hty in Hit.
    by eapply str_split_not_nil.
Qed.

Lemma tokens_rebuild_word_witness :
  let self := Trie_init (Known EXTENDED) "::" in
  str_join (token_glue self) ["a"; ":b"; ""; "c"] = "a:::b::::c" ∧
  (∀ word', _get_iterator self word' = Ok ["a"; ":b"; ""; "c"] →
     word' = "a:::b::::c") ∧
  (type self = Known EXTENDED → ["a"; ":b"; ""; "c"] ≠ []).
Proof.
  intros self.
  apply (tokens_rebuild_word self "a:::b::::c" ["a"; ":b"; ""; "c"]).
  reflexivity.
Defined.


(** ** Membership after [update], in either mode *)

Lemma clean_tokens_spec self word :
  clean_tokens self word = true →
  ∃ it, _get_iterator self word = Ok it ∧ Forall (λ t, t ≠ "") it.
Proof.
  unfold clean_tokens. destruct (_get_iterator self word) as [it|]; [|done].
  intros Hall. exists it. split; [done|]. apply Forall_forall.
  intros t Hin%list_elem_of_In. rewrite forallb_forall in Hall.
  specialize (Hall t Hin). by destruct (String.eqb_spec t "").
Qed.

Lemma clean_tokens_standard self word :
  type self = Known STANDARD → clean_tokens self word = true.
Proof.
  intros Hty. unfold clean_tokens, _get_iterator. rewrite Hty.
  induction word as [|c word IH]; [done|]. simpl. exact IH.
Qed.

Lemma clean_tokens_set_root self r word :
  clean_tokens (set_root self r) word = clean_tokens self word.
Proof. done. Qed.

(** The graph after [update] with words of clean tokens, in either mode:
    [update] succeeds, each word is stored at the end of its tokens, the
    other terminal values stay, and every path that became walkable leads
    towards one of the words. *)
Lemma update_tokens words : ∀ self,
  trie_node (root self) = true →
  Forall (λ w, clean_tokens self w = true) words →
  ∃ r, update self words = (Ok (), set_root self r) ∧
    trie_node r = true ∧
    (wf_val (root self) = true → wf_val r = true) ∧
    (∀ path v, Forall (λ t, t ≠ "") path →
       lookup_path r path = Some v ↔
       (∃ w, w ∈ words ∧ _get_iterator self w = Ok path ∧ v = VStr w) ∨
       ((∀ w, w ∈ words → _get_iterator self w ≠ Ok path) ∧
        lookup_path (root self) path = Some v)) ∧
    (∀ path node', Forall (λ t, t ≠ "") path → descend r path = Ok node' →
       (∃ old, descend (root self) path = Ok old) ∨
       ∃ w it, w ∈ words ∧ _get_iterator self w = Ok it ∧
               path `prefix_of` it).
Proof.
  induction words as [|word words IH]; intros self Hn Hclean.
  - exists (root self). simpl. destruct self. repeat split; eauto.
    + intros Hl. right. split; [|done]. by intros w ?%elem_of_nil.
    + intros [(w & ?%elem_of_nil & _)|[_ ?]]; done.
  - apply Forall_cons in Hclean as [Hword Hclean].
    destruct (clean_tokens_spec _ _ Hword) as (it & Hit & Hne).
    destruct (add_from_trie_node it word (root self) Hn Hne)
      as (r1 & Hfrom & Hr1).
    assert (add self word = (Ok (), set_root self r1)) as Hadd.
    { unfold add. by rewrite Hit, Hfrom. }
    destruct (IH (set_root self r1) Hr1 Hclean)
      as (r & Hup & Hr & Hwf & Hlook & Hdesc).
    exists r. simpl. rewrite Hadd. split; [exact Hup|]. split; [done|].
    split; [|split].
    + intros Hw. apply Hwf. simpl. by eapply add_from_wf.
    + intros path v Hpath. rewrite (Hlook path v Hpath). simpl.
      rewrite (lookup_add_from _ _ _ _ _ Hfrom Hne Hpath).
      change (_get_iterator (set_root self r1)) with (_get_iterator self).
      split.
      * intros [(w & Hw & Hc & Hv)|[Hnone Hl]].
        -- left. exists w. split; [by right|done].
        -- destruct (decide (path = it)) as [->|Hneq].
           ++ injection Hl as <-. left. exists word. split; [left|done].
           ++ right. split; [|done].
              intros w [->|Hw]%elem_of_cons; [congruence|by apply Hnone].
      * intros [(w & Hw & Hc & Hv)|[Hnone Hl]].
        -- destruct (decide (w ∈ words)) as [Hin|Hnin]; [left; eauto|].
           apply elem_of_cons in Hw as [->|Hw]; [|done].
           right. split.
           ++ intros w' Hw' Hc'.
              by rewrite (get_iterator_inj self w' word path) in Hw'.
           ++ rewrite decide_True by congruence. by rewrite Hv.
        -- right. split.
           ++ intros w Hw. apply Hnone. by right.
           ++ rewrite decide_False; [done|].
              intros ->. by apply (Hnone word); [left|].
    + intros path node' Hpath Hd.
      destruct (Hdesc path node' Hpath Hd)
        as [[old Hold]|(w & it' & Hw & Hit' & Hpre)].
      * simpl in Hold.
        destruct (descend_add_from _ _ _ _ _ _ Hfrom Hne Hpath Hold)
          as [?|Hpre]; [by left|].
        right. exists word, it. split; [left|done].
      * right. exists w, it'. split; [by right|done].
Qed.

Lemma forallb_Forall {A} (f : A → bool) (l : list A) :
  forallb f l = true → Forall (λ x, f x = true) l.
Proof.
  induction l as [|x l IH]; simpl; [by constructor|].
  intros [Hx Hl]%andb_prop. constructor; auto.
Qed.

Lemma nonempty_tokens_Forall (path : list string) :
  forallb (λ t, negb (String.eqb t "")) path = true →
  Forall (λ t, t ≠ "") path.
Proof.
  intros H%forallb_Forall. eapply Forall_impl; [exact H|].
  intros t Ht. simpl in Ht. by destruct (String.eqb_spec t "").
Qed.

(** X2.  In either mode, when the words and the queried word tokenize
    without an empty token, [update] on a new trie succeeds and the first
    membership query for a word answers [True] exactly when the word is
    among those inserted. *)
Theorem contains_iff_added (m : TYPES) (delim : string)
    (words : list string) (k : string) :
  let self := Trie_init (Known m) delim in
  forallb (clean_tokens self) (k :: words) = true →
  (update self words).1 = Ok () ∧
  (contains (update self words).2 k).1 = Ok (bool_decide (k ∈ words)).
Proof.
  intros self Hclean. apply forallb_Forall in Hclean.
  apply Forall_cons in Hclean as [Hk Hall].
  destruct (update_tokens words self eq_refl Hall)
    as (r & Hup & Hr & _ & Hlook & _).
  rewrite Hup. split; [done|]. simpl.
  rewrite contains_miss by apply lookup_empty.
  destruct (clean_tokens_spec _ _ Hk) as (it & Hit & Hne).
  unfold __contains__.
  change (_get_iterator (set_root self r) k) with (_get_iterator self k).
  rewrite Hit. simpl.
  assert (∀ v, lookup_path r it = Some v ↔
    ∃ w, w ∈ words ∧ _get_iterator self w = Ok it ∧ v = VStr w) as Hl.
  { intros v. rewrite (Hlook it v Hne). simpl. rewrite lookup_path_empty.
    split; [by intros [?|[_ ?]]|by left]. }
  unfold lookup_path in Hl.
  destruct (descend_trie_node it r Hr Hne) as [(d & Hd & _)| Hd];
    rewrite Hd in *; simpl.
  - f_equal. apply bool_decide_ext. split.
    + intros [v Hv]. apply Hl in Hv as (w & Hw & Hc & _).
      by rewrite (get_iterator_inj self k w it).
    + intros Hin. exists (VStr k). apply Hl. eauto.
  - f_equal. symmetry. apply bool_decide_eq_false_2. intros Hin.
    assert (@None pyval = Some (VStr k)) as Habs; [|done].
    apply Hl. eauto.
Qed.

Lemma contains_iff_added_witness :
  let self := Trie_init (Known EXTENDED) ":" in
  (update self ["a:b:c"; "a:d"]).1 = Ok () ∧
  (contains (update self ["a:b:c"; "a:d"]).2 "a:b").1
  = Ok (bool_decide ("a:b" ∈ ["a:b:c"; "a:d"])).
Proof.
  apply (contains_iff_added EXTENDED ":" ["a:b:c"; "a:d"] "a:b").
  reflexivity.
Defined.

(** The words below a node of the graph built by [update]. *)
Lemma leaves_after_update (self : Trie) (words : list string)
    (path : list string) (node : pyval) :
  root self = VDict [] →
  Forall (λ w, clean_tokens self w = true) words →
  Forall (λ t, t ≠ "") path →
  descend (root (update self words).2) path = Ok node →
  ∀ v, v ∈ leaves (_traverse node) ↔
       ∃ w it, w ∈ words ∧ _get_iterator self w = Ok it ∧
               path `prefix_of` it ∧ v = VStr w.
Proof.
  intros Hroot Hall Hne Hd.
  destruct (update_tokens words self) as (r & Hup & Hr & Hwf & Hlook & _);
    [by rewrite Hroot|done|].
  rewrite Hroot in Hwf, Hlook. specialize (Hwf eq_refl).
  rewrite Hup in *. simpl in Hd.
  intros v.
  destruct (descend_trie_node path r Hr Hne) as [(d & Hd' & Hnode)| Hd'];
    rewrite Hd' in Hd; [|done].
  injection Hd as <-.
  rewrite leaves_traverse by (done || by eapply descend_wf). split.
  - intros (rest & Hrest & Hl).
    rewrite <-(lookup_path_app r path) in Hl by done.
    apply Hlook in Hl as [(w & Hw & Hc & ->)|[_ Hl]].
    + exists w, (path ++ rest). repeat split; try done. by exists rest.
    + by rewrite lookup_path_empty in Hl.
    + apply Forall_app. by split.
  - intros (w & it & Hw & Hit & [rest ->] & ->).
    assert (Forall (λ t, t ≠ "") (path ++ rest)) as Hne'.
    { rewrite Forall_forall in Hall.
      destruct (clean_tokens_spec _ _ (Hall w Hw)) as (it' & Hit' & ?).
      congruence. }
    exists rest. split; [by apply Forall_app in Hne' as [_ ?]|].
    rewrite <-(lookup_path_app r path) by done.
    apply Hlook; [done|]. left. eauto.
Qed.

(** An inserted word makes every beginning of its token path lead to a
    node. *)
Lemma descend_after_update (self : Trie) (words : list string)
    (w : string) (it path : list string) :
  root self = VDict [] →
  Forall (λ w, clean_tokens self w = true) words →
  w ∈ words → _get_iterator self w = Ok it → path `prefix_of` it →
  ∃ d, descend (root (update self words).2) path = Ok (VDict d) ∧
       trie_node (VDict d) = true ∧ Forall (λ t, t ≠ "") path.
Proof.
  intros Hroot Hall Hw Hit [rest ->].
  destruct (update_tokens words self) as (r & Hup & Hr & _ & Hlook & _);
    [by rewrite Hroot|done|].
  rewrite Hup. simpl.
  assert (Forall (λ t, t ≠ "") (path ++ rest)) as Hne.
  { rewrite Forall_forall in Hall.
    destruct (clean_tokens_spec _ _ (Hall w Hw)) as (it' & Hit' & ?).
    congruence. }
  assert (lookup_path r (path ++ rest) = Some (VStr w)) as Hl.
  { apply Hlook; [done|]. left. eauto. }
  apply Forall_app in Hne as [Hpath _].
  destruct (descend_trie_node path r Hr Hpath) as [(d & Hd & Hn)|Hd].
  - eauto.
  - unfold lookup_path in Hl. by rewrite descend_app, Hd in Hl.
Qed.

(** X3.  Below the node a token path leads to, the generators of
    [_traverse] hold exactly the inserted words whose tokens start with
    that path, in either mode, when the words tokenize without an empty
    token.  (These are the values [autocomplete] hands to [_smash].) *)
Theorem traverse_holds_completions (m : TYPES) (delim : string)
    (words : list string) (path : list string) (node : pyval) :
  let self := Trie_init (Known m) delim in
  forallb (clean_tokens self) words = true →
  forallb (λ t, negb (String.eqb t "")) path = true →
  descend (root (update self words).2) path = Ok node →
  autocomplete (update self words).2 (PList path)
  = Ok (Smash (_traverse node)) ∧
  ∀ v, v ∈ leaves (_traverse node) ↔
       ∃ w it, w ∈ words ∧ _get_iterator self w = Ok it ∧
               path `prefix_of` it ∧ v = VStr w.
Proof.
  intros self Hall%forallb_Forall Hne%nonempty_tokens_Forall Hd.
  split; [unfold autocomplete; simpl; by rewrite Hd|].
  by apply leaves_after_update.
Qed.

Lemma traverse_holds_completions_witness :
  let self := Trie_init (Known EXTENDED) ":" in
  let node := VDict [("b", VDict [("c", VDict [("", VStr "a:b:c")])]);
                     ("d", VDict [("", VStr "a:d")])] in
  autocomplete (update self ["a:b:c"; "a:d"]).2 (PList ["a"])
  = Ok (Smash (_traverse node)) ∧
  ∀ v, v ∈ leaves (_traverse node) ↔
       ∃ w it, w ∈ ["a:b:c"; "a:d"] ∧ _get_iterator self w = Ok it ∧
               ["a"] `prefix_of` it ∧ v = VStr w.
Proof.
  intros self node.
  apply (traverse_holds_completions EXTENDED ":" ["a:b:c"; "a:d"] ["a"] node);
    reflexivity.
Defined.


(** ** Empty tokens *)

Lemma contains_member_at self word :
  __contains__ self word
  = (iterator ← _get_iterator self word; member_at (root self) iterator).
Proof. done. Qed.

(** [add] fails where the rest of its path fails. *)
Lemma add_from_app_raise seen : ∀ node node' rest word e,
  descend node seen = Ok node' →
  add_from node' rest word = Raise e →
  add_from node (seen ++ rest) word = Raise e.
Proof.
  induction seen as [|c seen IH]; intros node node' rest word e; simpl.
  - by intros [= ->].
  - destruct (getitem node c) as [child|] eqn:Hget; [|done]. simpl.
    intros Hd Hadd. by rewrite (IH _ _ _ _ _ Hd Hadd).
Qed.



(** ** Assignment on an existing path *)

Lemma assign_from_descend key value iterator : ∀ node d,
  descend node iterator = Ok (VDict d) →
  ∃ r, assign_from node iterator key value = Ok r ∧
       descend r iterator = Ok (VDict (dict_set d key value)).
Proof.
  induction iterator as [|c rest IH]; intros node d; simpl.
  - intros [= ->]. eauto.
  - destruct node as [|s|d0]; try done. simpl.
    destruct (dict_get d0 c) as [child|] eqn:Hget; [|done]. simpl.
    intros Hd. destruct (IH _ _ Hd) as (child' & -> & Hd'). simpl.
    eexists. split; [done|]. simpl. by rewrite dict_get_set_eq.
Qed.

(** X5.  When the tokens of [word] lead to a node, [assign] stores the
    value under [key] in that node, whether or not a word ends there, and
    returns normally; mode, delimiter and cache stay as they were. *)
Theorem assign_stores_at_node (self : Trie) (word key : string)
    (value : attr_value) (iterator : list string)
    (d : list (string * pyval)) :
  _get_iterator self word = Ok iterator →
  descend (root self) iterator = Ok (VDict d) →
  ∃ r, assign self word key value = (Ok (), set_root self r) ∧
       descend r iterator = Ok (VDict (dict_set d key (attr_val value))) ∧
       getitem (VDict (dict_set d key (attr_val value))) key
       = Ok (attr_val value).
Proof.
  intros Hit Hd.
  destruct (assign_from_descend key (attr_val value) _ _ _ Hd)
    as (r & Has & Hd').
  exists r. unfold assign. rewrite Hit, Has. repeat split; [done|].
  simpl. by rewrite dict_get_set_eq.
Qed.

Lemma assign_stores_at_node_witness :
  let self := (add (Trie_init (Known STANDARD) ":") "apple").2 in
  ∃ r, assign self "app" "count" (AStr "3") = (Ok (), set_root self r) ∧
       descend r ["a"; "p"; "p"]
       = Ok (VDict (dict_set [("l", VDict [("e", VDict [("", VStr "apple")])])]
                      "count" (attr_val (AStr "3")))) ∧
       getitem (VDict (dict_set [("l", VDict [("e", VDict [("", VStr "apple")])])]
                         "count" (attr_val (AStr "3")))) "count"
       = Ok (attr_val (AStr "3")).
Proof.
  intros self.
  apply (assign_stores_at_node self "app" "count" (AStr "3") ["a"; "p"; "p"]
           [("l", VDict [("e", VDict [("", VStr "apple")])])]);
    reflexivity.
Defined.

Lemma assign_from_cons node char rest key value r :
  assign_from node (char :: rest) key value = Ok r →
  ∃ d child child',
    node = VDict d ∧ dict_get d char = Some child ∧
    assign_from child rest key value = Ok child' ∧
    r = VDict (dict_set d char child').
Proof.
  simpl. destruct node as [|s|d]; try done. simpl.
  destruct (dict_get d char) as [child|] eqn:Hget; [|done]. simpl.
  destruct (assign_from child rest key value) as [child'|] eqn:Hc; [|done].
  simpl. intros [= <-]. exists d, child, child'. done.
Qed.

Lemma member_at_cons d c ps :
  member_at (VDict d) (c :: ps)
  = match dict_get d c with
    | Some child => member_at child ps
    | None => Ok false
    end.
Proof. unfold member_at. simpl. by destruct (dict_get d c). Qed.

(** Storing an attribute changes the membership test only on paths that
    run through the attribute. *)
Lemma member_at_assign_from key value iterator : ∀ node r path,
  key ≠ "" →
  assign_from node iterator key value = Ok r →
  ¬ (iterator ++ [key]) `prefix_of` path →
  member_at r path = member_at node path.
Proof.
  induction iterator as [|char rest IH]; intros node r path Hkey Has Hpre.
  - simpl in Has. apply setitem_Ok in Has as (d & -> & ->).
    destruct path as [|c ps].
    + unfold member_at. simpl. by rewrite dict_get_set_ne.
    + rewrite !member_at_cons. rewrite dict_get_set_ne; [done|].
      intros ->. apply Hpre. simpl. apply prefix_cons, prefix_nil.
  - apply assign_from_cons in Has
      as (d & child & child' & -> & Hget & Hchild & ->).
    destruct path as [|c ps].
    + unfold member_at. simpl.
      destruct (decide (char = "")) as [->|Hne].
      * by rewrite dict_get_set_eq, Hget.
      * by rewrite dict_get_set_ne.
    + rewrite !member_at_cons.
      destruct (decide (c = char)) as [->|Hne].
      * rewrite dict_get_set_eq, Hget. apply (IH _ _ _ Hkey Hchild).
        intros Hp. apply Hpre. simpl. by apply prefix_cons.
      * by rewrite dict_get_set_ne.
Qed.

(** X6.  An attribute stored under a key other than [''] leaves the
    membership of every word unchanged whose tokens do not run through
    the attribute, that is, do not start with the tokens of the assigned
    word followed by the key. *)
Theorem assign_keeps_membership (self self' : Trie) (word key : string)
    (value : attr_value) (k : string) (iterator tokens : list string) :
  assign self word key value = (Ok (), self') →
  key ≠ "" →
  _get_iterator self word = Ok iterator →
  _get_iterator self k = Ok tokens →
  ¬ (iterator ++ [key]) `prefix_of` tokens →
  __contains__ self' k = __contains__ self k.
Proof.
  intros Has Hkey Hit Hk Hpre. unfold assign in Has. rewrite Hit in Has.
  destruct (assign_from (root self) iterator key (attr_val value))
    as [r|[]] eqn:Hfrom; try done.
  - injection Has as <-.
    rewrite !contains_member_at, get_iterator_set_root, Hk. simpl.
    by apply (member_at_assign_from key (attr_val value) iterator).
  - by injection Has as <-.
Qed.

Lemma assign_keeps_membership_witness :
  let self := (update (Trie_init (Known STANDARD) ":") ["app"; "apple"]).2 in
  __contains__ (assign self "app" "count" (AStr "2")).2 "apple"
  = __contains__ self "apple".
Proof.
  intros self.
  apply (assign_keeps_membership self
           (assign self "app" "count" (AStr "2")).2
           "app" "count" (AStr "2") "apple" ["a"; "p"; "p"]
           ["a"; "p"; "p"; "l"; "e"]); try reflexivity.
  - discriminate.
  - intros [rest Hrest]. simpl in Hrest. discriminate.
Defined.




(** ** Bulk insertion and memoization *)


(** X9.  Memoization: once [contains(word)] has returned an answer, every
    later [contains(word)] returns that answer and changes nothing,
    whatever calls were made in between (insertions, assignments, a
    [load] that replaced the whole graph). *)
Theorem contains_answer_is_kept (self self1 : Trie) (word : string)
    (b : bool) (ops : list op) (fs : filesystem) :
  contains self word = (Ok b, self1) →
  contains (run ops (self1, fs)).1 word = (Ok b, (run ops (self1, fs)).1).
Proof.
  intros Hc%contains_cached. apply contains_hit.
  eapply lookup_weaken; [exact Hc|]. apply (run_cache ops (self1, fs)).
Qed.

Lemma contains_answer_is_kept_witness :
  let self := (add (Trie_init (Known STANDARD) ":") "apple").2 in
  let ops := [OpLoad "none.json"; OpAssign "apple" "" ANone; OpAdd "x"] in
  contains (run ops ((contains self "apple").2, mkFs ∅ ∅)).1 "apple"
  = (Ok true, (run ops ((contains self "apple").2, mkFs ∅ ∅)).1).
Proof.
  intros self ops.
  apply (contains_answer_is_kept self (contains self "apple").2 "apple" true
           ops (mkFs ∅ ∅)).
  reflexivity.
Defined.

Lemma step_query_agrees w o :
  is_query o = true → cache_agrees w.1 →
  root (step w o).1 = root w.1 ∧ cache_agrees (step w o).1.
Proof.
  intros Hq Hagree. destruct o; try done; simpl.
  unfold contains, memoize_call.
  destruct (cache w.1 !! word) as [b|] eqn:Hc; [done|].
  destruct (__contains__ w.1 word) as [b|e] eqn:Hb; [|done].
  split; [done|]. intros k b'. simpl.
  destruct (decide (k = word)) as [->|Hne].
  - rewrite lookup_insert_eq. intros [= <-].
    by rewrite <-Hb.
  - rewrite lookup_insert_ne by done. intros Hk.
    by rewrite <-(Hagree k b' Hk).
Qed.

Lemma run_query_agrees ops : ∀ w,
  forallb is_query ops = true → cache_agrees w.1 →
  root (run ops w).1 = root w.1 ∧ cache_agrees (run ops w).1.
Proof.
  induction ops as [|o ops IH]; intros w Hq Hagree; simpl; [done|].
  simpl in Hq. apply andb_prop in Hq as [Ho Hq].
  destruct (step_query_agrees w o Ho Hagree) as [Hr Ha].
  destruct (IH (step w o) Hq Ha) as [Hr' Ha']. by rewrite Hr', Hr.
Qed.

(** X10.  As long as no mutation follows the first query, memoization is
    invisible: starting from a trie with an empty cache, after any
    number of [contains], [autocomplete] and [unload] calls the graph is
    unchanged and [contains] gives what the undecorated method gives. *)
Theorem queries_only_cache_is_exact (self : Trie) (ops : list op)
    (fs : filesystem) (word : string) :
  cache self = ∅ →
  forallb is_query ops = true →
  root (run ops (self, fs)).1 = root self ∧
  (contains (run ops (self, fs)).1 word).1 = __contains__ self word.
Proof.
  intros Hc Hq.
  destruct (run_query_agrees ops (self, fs) Hq) as [Hr Ha].
  { intros k b. simpl. by rewrite Hc, lookup_empty. }
  split; [done|].
  destruct (run_type ops (self, fs)) as [Ht Hd].
  assert (__contains__ (run ops (self, fs)).1 word = __contains__ self word)
    as Hsame by (by apply contains_body_ext).
  unfold contains, memoize_call.
  destruct (cache (run ops (self, fs)).1 !! word) as [b|] eqn:Hcw.
  - by rewrite <-Hsame, (Ha word b Hcw).
  - rewrite Hsame. by destruct (__contains__ self word).
Qed.

Lemma queries_only_cache_is_exact_witness :
  let self := (update (Trie_init (Known STANDARD) ":") ["app"; "apple"]).2 in
  let ops := [OpContains "appl"; OpAutocomplete (PStr "a");
              OpContains "app"; OpUnload "t.json"; OpContains "appl"] in
  root (run ops (self, mkFs ∅ ∅)).1 = root self ∧
  (contains (run ops (self, mkFs ∅ ∅)).1 "appl").1 = __contains__ self "appl".
Proof.
  intros self ops.
  apply (queries_only_cache_is_exact self ops (mkFs ∅ ∅) "appl");
    reflexivity.
Defined.

(** ** Files *)

(** What [readline] returns is decided by the text up to the first line
    feed. *)
Lemma readline_first_line line rest :
  one_line line = true →
  readline (line +:+ String newline rest)
  = readline (line +:+ String newline "").
Proof.
  induction line as [|c line IH]; simpl; [done|].
  intros [_ Hl]%andb_prop.
  destruct (Ascii.eqb c newline || Ascii.eqb c carriage_return); [done|].
  by rewrite IH.
Qed.



Lemma step_keeps_file filename w o :
  keeps_file filename o = true →
  files (step w o).2 !! filename = files w.2 !! filename ∧
  denied (step w o).2 = denied w.2.
Proof.
  intros Hk. destruct o; try done. simpl in *. unfold unload.
  destruct (decide (filename0 ∈ denied w.2)); [done|]. simpl.
  split; [|done]. apply lookup_insert_ne.
  by destruct (String.eqb_spec filename0 filename).
Qed.

Lemma run_keeps_file filename ops : ∀ w,
  forallb (keeps_file filename) ops = true →
  files (run ops w).2 !! filename = files w.2 !! filename ∧
  denied (run ops w).2 = denied w.2.
Proof.
  induction ops as [|o ops IH]; intros w Hk; simpl; [done|].
  simpl in Hk. apply andb_prop in Hk as [Ho Hk].
  destruct (IH (step w o) Hk) as [-> ->]. by apply step_keeps_file.
Qed.



(** ** A segmented trie with an empty delimiter *)

Lemma step_raising_cache w o e :
  (∀ word, _get_iterator w.1 word = Raise e) →
  cache w.1 = ∅ → cache (step w o).1 = ∅.
Proof.
  intros Hit Hc. destruct o; simpl; try done.
  - by rewrite add_cache.
  - by rewrite update_cache.
  - by destruct (assign_cache w.1 word key value) as [-> _].
  - unfold contains, memoize_call. rewrite Hc, lookup_empty.
    unfold __contains__. by rewrite Hit.
  - by destruct (load_cache w.1 filename w.2) as [-> _].
Qed.

Lemma get_iterator_ext self self' word :
  type self' = type self → delimiter self' = delimiter self →
  _get_iterator self' word = _get_iterator self word.
Proof. intros Ht Hd. unfold _get_iterator. by rewrite Ht, Hd. Qed.

Lemma run_raising_cache ops e : ∀ w,
  (∀ word, _get_iterator w.1 word = Raise e) →
  cache w.1 = ∅ → cache (run ops w).1 = ∅.
Proof.
  induction ops as [|o ops IH]; intros w Hit Hc; simpl; [done|].
  apply IH.
  - intros word. destruct (step_type w o) as [Ht Hd].
    by rewrite (get_iterator_ext w.1 _ word Ht Hd).
  - by eapply step_raising_cache.
Qed.

(** X13.  A segmented trie constructed with the empty string as
    delimiter cannot tokenize: whatever calls came before, [add],
    [contains] and [assign] raise [ValueError] (from [str.split]) and
    leave the trie as it was. *)
Theorem empty_delimiter_raises (ops : list op) (fs : filesystem)
    (word key : string) (value : attr_value) :
  let self := (run ops (Trie_init (Known EXTENDED) "", fs)).1 in
  add self word = (Raise ValueError, self) ∧
  contains self word = (Raise ValueError, self) ∧
  assign self word key value = (Raise ValueError, self).
Proof.
  intros self.
  destruct (run_type ops (Trie_init (Known EXTENDED) "", fs)) as [Hty Hd].
  fold self in Hty, Hd. simpl in Hty, Hd.
  assert (∀ w, _get_iterator self w = Raise ValueError) as Hit.
  { intros w. unfold _get_iterator. by rewrite Hty, Hd. }
  assert (cache self = ∅) as Hc.
  { by apply (run_raising_cache ops ValueError). }
  repeat split.
  - unfold add. by rewrite Hit.
  - unfold contains, memoize_call. rewrite Hc, lookup_empty.
    unfold __contains__. by rewrite Hit.
  - unfold assign. by rewrite Hit.
Qed.


(** ** Collecting completions *)

Lemma traverse_stops_none n :
  trie_node n = true → stops_none (_traverse n) = true.
Proof.
  induction n as [|s|d IH] using pyval_ind; try done.
  simpl. intros Hn. induction IH as [|[k x] d Hx _ IHd]; [done|].
  simpl in *. apply andb_prop in Hn as [Hk Hd]. rewrite (IHd Hd).
  destruct (String.eqb k ""); [done|]. by rewrite (Hx Hk).
Qed.

(** Collecting a tree of generators whose leaves are all strings yields
    nothing, and ends normally or in [RecursionError]. *)
Lemma smash_strings_quiet i :
  stops_none i = true →
  (∀ v, v ∈ leaves i → ∃ s, v = VStr s) →
  ∀ depth, _smash depth i = ([], None) ∨
           _smash depth i = ([], Some RecursionError).
Proof.
  induction i as [v|items stop IH] using item_ind; intros Hstop Hleaves depth.
  - destruct (Hleaves v) as [s ->]; [by left|].
    destruct depth as [|depth]; [by right|].
    destruct s as [|c s]; [by left|]. right. apply smash_str_raises.
  - destruct stop; [done|]. simpl in Hstop, Hleaves.
    destruct depth as [|depth]; [by right|]. simpl.
    induction IH as [|i items Hi _ IHitems]; [by left|].
    simpl in Hstop. apply andb_prop in Hstop as [Hs1 Hs2].
    assert (∀ v, v ∈ leaves i → ∃ s, v = VStr s) as Hl1.
    { intros v Hv. apply Hleaves. simpl. apply elem_of_app. by left. }
    assert (∀ v, v ∈ flat_map leaves items → ∃ s, v = VStr s) as Hl2.
    { intros v Hv. apply Hleaves. simpl. apply elem_of_app. by right. }
    assert (has_iter i = true) as Hiter.
    { destruct i as [v|]; [|done]. by destruct (Hl1 v) as [s ->]; [left|]. }
    simpl. rewrite Hiter.
    destruct (Hi Hs1 Hl1 depth) as [-> | ->]; [|by right].
    destruct (IHitems Hs2 Hl2) as [-> | ->]; [by left|by right].
Qed.

(** If one of the leaves is a non-empty string, collecting overflows the
    recursion limit, whatever the limit is. *)
Lemma smash_strings_overflow i :
  stops_none i = true →
  (∀ v, v ∈ leaves i → ∃ s, v = VStr s) →
  (∃ c s, VStr (String c s) ∈ leaves i) →
  ∀ depth, _smash depth i = ([], Some RecursionError).
Proof.
  induction i as [v|items stop IH] using item_ind;
    intros Hstop Hleaves (c & s & Hin) depth.
  - simpl in Hin. apply list_elem_of_singleton in Hin as <-.
    apply smash_str_raises.
  - destruct stop; [done|]. simpl in Hstop, Hleaves, Hin.
    destruct depth as [|depth]; [done|]. simpl.
    induction IH as [|i items Hi _ IHitems]; [by apply elem_of_nil in Hin|].
    simpl in Hstop. apply andb_prop in Hstop as [Hs1 Hs2].
    assert (∀ v, v ∈ leaves i → ∃ s, v = VStr s) as Hl1.
    { intros v Hv. apply Hleaves. simpl. apply elem_of_app. by left. }
    assert (∀ v, v ∈ flat_map leaves items → ∃ s, v = VStr s) as Hl2.
    { intros v Hv. apply Hleaves. simpl. apply elem_of_app. by right. }
    assert (has_iter i = true) as Hiter.
    { destruct i as [v|]; [|done]. by destruct (Hl1 v) as [s' ->]; [left|]. }
    simpl. rewrite Hiter. simpl in Hin. apply elem_of_app in Hin as [Hin|Hin].
    + by rewrite (Hi Hs1 Hl1 (ex_intro _ c (ex_intro _ s Hin)) depth).
    + destruct (smash_strings_quiet i Hs1 Hl1 depth) as [-> | ->]; [|done].
      by rewrite (IHitems Hs2 Hl2 Hin).
Qed.

(** X14.  On a trie built by [update], in either mode, collecting the
    completions of a prefix that some inserted non-empty word starts with
    never delivers that word or any other: [list(autocomplete(prefix))]
    raises [RecursionError] under every recursion limit, because
    [_smash] takes the stored strings for iterables to descend into. *)
Theorem autocomplete_overflows (m : TYPES) (delim : string)
    (words : list string) (prefix : pyiter) (w : string)
    (iterator : list string) (depth : nat) :
  let self := Trie_init (Known m) delim in
  forallb (clean_tokens self) words = true →
  w ∈ words → w ≠ "" →
  _get_iterator self w = Ok iterator →
  iter_prefix prefix `prefix_of` iterator →
  autocomplete_list depth (update self words).2 prefix
  = ([], Some RecursionError).
Proof.
  intros self Hall%forallb_Forall Hw Hne Hit Hpre.
  destruct (descend_after_update self words w iterator (iter_prefix prefix))
    as (d & Hd & Hnode & Hpath); try done.
  unfold autocomplete_list, autocomplete. rewrite Hd.
  change (_smash depth (_traverse (VDict d)) = ([], Some RecursionError)).
  pose proof (leaves_after_update self words _ _ eq_refl Hall Hpath Hd)
    as Hleaves.
  apply smash_strings_overflow.
  - by apply traverse_stops_none.
  - intros v (w' & _ & _ & _ & _ & ->)%Hleaves. eauto.
  - destruct w as [|c s]; [done|]. exists c, s.
    apply Hleaves. exists (String c s), iterator. done.
Qed.

Lemma autocomplete_overflows_witness :
  autocomplete_list 1000
    (update (Trie_init (Known EXTENDED) ":") ["a:b:c"; "a:d"]).2
    (PList ["a"])
  = ([], Some RecursionError).
Proof.
  apply (autocomplete_overflows EXTENDED ":" ["a:b:c"; "a:d"] (PList ["a"])
           "a:d" ["a"; "d"] 1000).
  - reflexivity.
  - right. left.
  - discriminate.
  - reflexivity.
  - by exists ["d"].
Defined.



(** ** Locality of insertion *)

Lemma member_at_empty ps : member_at (VDict []) ps = Ok false.
Proof. by destruct ps. Qed.

(** [add] changes the membership test on the path of its word only,
    when no token is empty. *)
Lemma member_at_add_from iterator word : ∀ node r path,
  add_from node iterator word = Ok r →
  Forall (λ t, t ≠ "") iterator → Forall (λ t, t ≠ "") path →
  path ≠ iterator →
  member_at r path = member_at node path.
Proof.
  induction iterator as [|char rest IH]; intros node r path Hadd Hit Hpath Hne.
  - simpl in Hadd. apply setitem_Ok in Hadd as (d & -> & ->).
    destruct path as [|c ps]; [done|].
    apply Forall_cons in Hpath as [Hc _].
    rewrite !member_at_cons. by rewrite dict_get_set_ne.
  - apply Forall_cons in Hit as [Hchar Hrest].
    apply add_from_cons in Hadd
      as (d & child & child' & -> & -> & Hchild & Hget).
    destruct path as [|c ps].
    + unfold member_at. simpl. by rewrite dict_get_set_ne.
    + apply Forall_cons in Hpath as [Hc Hps]. rewrite !member_at_cons.
      destruct (decide (c = char)) as [->|Hneq].
      * rewrite dict_get_set_eq.
        rewrite (IH _ _ _ Hchild Hrest Hps) by congruence.
        destruct Hget as [->|[-> ->]]; [done|apply member_at_empty].
      * by rewrite dict_get_set_ne.
Qed.

(** X17.  Insertion is local: on any trie, when [add(word)] returns
    normally, the undecorated membership test of every other word is
    what it was before, provided the two words tokenize without an empty
    token. *)
Theorem add_keeps_other_membership (self self' : Trie) (word k : string) :
  add self word = (Ok (), self') →
  clean_tokens self word = true → clean_tokens self k = true →
  k ≠ word →
  __contains__ self' k = __contains__ self k.
Proof.
  intros (it & r & Hit & Hadd & ->)%add_Ok Hw Hk Hne.
  destruct (clean_tokens_spec _ _ Hw) as (it' & Hit' & Hclean).
  rewrite Hit in Hit'. injection Hit' as <-.
  destruct (clean_tokens_spec _ _ Hk) as (kt & Hkt & Hkclean).
  rewrite !contains_member_at, get_iterator_set_root, Hkt. simpl.
  apply (member_at_add_from it word); try done.
  intros ->. apply Hne. by eapply get_iterator_inj.
Qed.

Lemma add_keeps_other_membership_witness :
  let self :=
    (run [OpAdd "a:b"; OpAssign "a:b" "n" (AStr "1"); OpContains "a:b"]
       (Trie_init (Known EXTENDED) ":", mkFs ∅ ∅)).1 in
  __contains__ (add self "a:b:c").2 "a:b" = __contains__ self "a:b".
Proof.
  intros self.
  apply (add_keeps_other_membership self (add self "a:b:c").2 "a:b:c" "a:b");
    try reflexivity.
  discriminate.
Defined.

(** ** The terminal key as attribute *)



